(** * gobuffer: a growable, checkpointable FIFO buffer

    A shallow embedding of [buffer.go] (the [Read]/[Unread] surface with the
    error-returning constructor) and of its sibling revision that offers the
    [Next]/[Consume] surface with the panicking constructor.  Both revisions
    share [position], [State] and the methods [Write], [State], [Rollback],
    [Commit], [Grow], [bufferPos] word for word; they are embedded once.

    Conventions.
    - Go's [int] is the 64-bit two's-complement integer of the usual targets:
      a [Z] together with [GoInt.wrap] after every [+], [-], [*] and [/].
    - A run-time panic is a value: every method that indexes, slices or
      divides returns in [run], whose [Abort] carries the kind of fault.
    - A method with a pointer receiver is a function from the buffer to its
      results paired with the buffer it leaves behind.
    - Memory is unbounded: [make] and [append] never fail for lack of it. *)

From Stdlib Require Import ZArith Lia Bool List Ascii String.
From stdpp Require Import base list.

#[local] Open Scope Z_scope.

(** ** Outcomes of a call *)

Inductive fault : Type :=
| DivideByZero      (* integer divide by zero *)
| IndexOutOfRange   (* s[i] with i outside [0, len s) *)
| SliceOutOfRange   (* s[i:] with i outside [0, len s] *)
| MakeOutOfRange    (* make with a negative capacity *)
| Raised            (* an explicit panic(...) of the program *)
| NoReturn.         (* the call does not come back *)

Inductive run (A : Type) : Type :=
| Ret (a : A)
| Abort (f : fault).

Arguments Ret {A} a.
Arguments Abort {A} f.

#[global] Instance run_ret : MRet run := @Ret.
#[global] Instance run_bind : MBind run := fun A B k m =>
  match m with
  | Ret a => k a
  | Abort f => Abort f
  end.

(** ** Go's [int] *)

Module GoInt.

Definition int_min : Z := - 2 ^ 63.
Definition int_max : Z := 2 ^ 63 - 1.

(** The representative of [z] modulo [2^64] in [int_min .. int_max]. *)
Definition wrap (z : Z) : Z := (z + 2 ^ 63) mod 2 ^ 64 - 2 ^ 63.

Definition add (a b : Z) : Z := wrap (a + b).
Definition sub (a b : Z) : Z := wrap (a - b).
Definition mul (a b : Z) : Z := wrap (a * b).

(** [a / b]: truncated toward zero, panics on a zero divisor. *)
Definition quot (a b : Z) : run Z :=
  if b =? 0 then Abort DivideByZero else Ret (wrap (Z.quot a b)).

(** [a % b]: the sign follows the dividend, panics on a zero divisor. *)
Definition rem (a b : Z) : run Z :=
  if b =? 0 then Abort DivideByZero else Ret (Z.rem a b).

Definition in_range (z : Z) : Prop := int_min <= z <= int_max.

End GoInt.

(** ** [position] *)

Module position.

Record t : Type := mk { rowSize : Z; Row : Z; Col : Z }.

(** [func (p position) AbsolutePos() int] *)
Definition AbsolutePos (p : t) : Z :=
  GoInt.add (GoInt.mul (Row p) (rowSize p)) (Col p).

(** [func (p position) Move(steps int) position] *)
Definition Move (p : t) (steps : Z) : run t :=
  let absPos := GoInt.add (AbsolutePos p) steps in
  let absPos := if absPos <? 0 then 0 else absPos in
  row ← GoInt.quot absPos (rowSize p);
  col ← GoInt.rem absPos (rowSize p);
  mret {| rowSize := rowSize p; Row := row; Col := col |}.

(** [position{rowSize: rowSize}] *)
Definition origin (rowSize : Z) : t :=
  {| rowSize := rowSize; Row := 0; Col := 0 |}.

End position.

(** ** [State] *)

Module State.

Record t : Type := mk { read : position.t; write : position.t; init : bool }.

(** [func (s State) zero() bool] *)
Definition zero (s : t) : bool := negb (init s).

(** [func newState(read, write position) State] *)
Definition newState (read write : position.t) : t :=
  {| read := read; write := write; init := true |}.

(** The composite literal [State{}]. *)
Definition empty : t :=
  {| read := position.mk 0 0 0; write := position.mk 0 0 0; init := false |}.

End State.

(** The error values of the package: the two sentinels, and the value that
  [fmt.Errorf("illegal non-positive row size %d", rowSize)] builds. *)
Inductive error : Type :=
| IllegalStateError
| ZeroStateError
| IllegalRowSize (rowSize : Z).

(** ** Slices *)

(** Every Go type has a zero value; [make] fills with it and a named result
  starts out as it. *)
Class ZeroValue (T : Type) : Type := zero_value : T.

#[global] Instance rune_zero : ZeroValue ascii := zero.

Section Slices.
Context {A : Type}.

Definition len (s : list A) : Z := Z.of_nat (length s).

(** [s[i]] as an operand. *)
Definition index (s : list A) (i : Z) : run A :=
  if i <? 0 then Abort IndexOutOfRange
  else match s !! Z.to_nat i with
       | Some x => Ret x
       | None => Abort IndexOutOfRange
       end.

(** [s[i] = x] *)
Definition store (s : list A) (i : Z) (x : A) : run (list A) :=
  _ ← index s i;
  mret (<[Z.to_nat i := x]> s).

(** [s[i:]] *)
Definition slice_from (s : list A) (i : Z) : run (list A) :=
  if (0 <=? i) && (i <=? len s) then Ret (drop (Z.to_nat i) s)
  else Abort SliceOutOfRange.

(** [make([]A, n)] *)
Definition make `{ZeroValue A} (n : Z) : run (list A) :=
  if n <? 0 then Abort MakeOutOfRange
  else Ret (replicate (Z.to_nat n) zero_value).

(** [make([]A, 0, c)] *)
Definition make_cap (c : Z) : run (list A) :=
  if c <? 0 then Abort MakeOutOfRange else Ret [].

End Slices.

(** ** [Buffer]: what both revisions share *)

Module Buffer.
Section Buffer.
Context {T : Type} `{ZeroValue T}.

Record t : Type := mk {
  rowSize : Z;
  startRow : Z;
  buffers : list (list T);
  read : position.t;
  write : position.t
}.

Definition set_buffers (b : t) (bufs : list (list T)) : t :=
  {| rowSize := rowSize b; startRow := startRow b; buffers := bufs;
     read := read b; write := write b |}.
Definition set_read (b : t) (p : position.t) : t :=
  {| rowSize := rowSize b; startRow := startRow b; buffers := buffers b;
     read := p; write := write b |}.
Definition set_write (b : t) (p : position.t) : t :=
  {| rowSize := rowSize b; startRow := startRow b; buffers := buffers b;
     read := read b; write := p |}.
Definition set_startRow (b : t) (r : Z) : t :=
  {| rowSize := rowSize b; startRow := r; buffers := buffers b;
     read := read b; write := write b |}.

(** [func (b *Buffer[T]) bufferPos(pos position) (row, col int)] *)
Definition bufferPos (b : t) (pos : position.t) : Z * Z :=
  (GoInt.sub (position.Row pos) (startRow b), position.Col pos).

(** The loop of [Grow]:
    [for i := len(b.buffers); i <= rows; i++ { append a fresh row }].
    A run that stops makes [rows - len + 1] turns or none; the counter
    [fuel] is started there, and runs out only when [i++] wraps around
    below [rows], where the loop never stops. *)
Fixpoint grow_loop (fuel : nat) (rowSize rows i : Z) (bufs : list (list T))
  : run (list (list T)) :=
  if i <=? rows then
    match fuel with
    | O => Abort NoReturn
    | S fuel' =>
        row ← make rowSize;
        grow_loop fuel' rowSize rows (GoInt.add i 1) (bufs ++ [row])
    end
  else Ret bufs.

(** [func (b *Buffer[T]) Grow(size int)] *)
Definition Grow (size : Z) (b : t) : run t :=
  rows ← GoInt.quot size (rowSize b);
  let i := len (buffers b) in
  bufs ← grow_loop (Z.to_nat (rows - i + 1)) (rowSize b) rows i (buffers b);
  mret (set_buffers b bufs).

(** [func (b *Buffer[T]) Write(element T)] *)
Definition Write (element : T) (b : t) : run t :=
  b ← Grow (GoInt.add (position.AbsolutePos (write b)) 1) b;
  let '(row, col) := bufferPos b (write b) in
  chunk ← index (buffers b) row;
  chunk ← store chunk col element;
  let b := set_buffers b (<[Z.to_nat row := chunk]> (buffers b)) in
  w ← position.Move (write b) 1;
  mret (set_write b w).

(** [func (b *Buffer[T]) State() State] *)
Definition State (b : t) : State.t := State.newState (read b) (write b).

(** [func (b *Buffer[T]) Rollback(state State) error]; [None] is [nil]. *)
Definition Rollback (state : State.t) (b : t) : option error * t :=
  if State.zero state then (Some ZeroStateError, b)
  else if position.Row (State.read state) <? startRow b
       then (Some IllegalStateError, b)
       else (None, set_read b (State.read state)).

(** [func (b *Buffer[T]) Commit()] *)
Definition Commit (b : t) : run t :=
  let '(row, _) := bufferPos b (read b) in
  bufs ← slice_from (buffers b) (GoInt.sub row (startRow b));
  let b := set_buffers b bufs in
  mret (set_startRow b (GoInt.add (startRow b) row)).

(** The struct literal of both constructors. *)
Definition fresh (rowSize : Z) (bufs : list (list T)) : t :=
  {| rowSize := rowSize; startRow := 0; buffers := bufs;
     read := position.origin rowSize; write := position.origin rowSize |}.

End Buffer.
Arguments t T : clear implicits.
End Buffer.

(** ** [buffer.go]: consuming reads, [Unread], a constructor that reports *)

Module ReadUnread.
Section ReadUnread.
Context {T : Type} `{ZeroValue T}.
Import Buffer.

(** [func (b *Buffer[T]) buffered() int] *)
Definition buffered (b : t T) : Z :=
  GoInt.sub (position.AbsolutePos (write b)) (position.AbsolutePos (read b)).

(** [func (b *Buffer[T]) Read() (element T, ok bool)] *)
Definition Read (b : t T) : run ((T * bool) * t T) :=
  if buffered b <=? 0 then mret ((zero_value, false), b)
  else
    let '(row, col) := bufferPos b (read b) in
    chunk ← index (buffers b) row;
    element ← index chunk col;
    r ← position.Move (read b) 1;
    mret ((element, true), set_read b r).

(** [func (b *Buffer[T]) Unread()] *)
Definition Unread (b : t T) : run (t T) :=
  r ← position.Move (read b) (-1);
  mret (set_read b r).

(** [func NewWithSize[T any](rowSize, rows int) (buf *Buffer[T], err error)];
    [None] is [nil] on either side. *)
Definition NewWithSize (rowSize rows : Z) : run (option (t T) * option error) :=
  if rowSize <=? 0 then mret (None, Some (IllegalRowSize rowSize))
  else
    bufs ← make_cap rows;
    buf ← Grow (GoInt.mul rows rowSize) (fresh rowSize bufs);
    mret (Some buf, None).

(** [func New[T any]() (buf *Buffer[T])] *)
Definition New : run (option (t T)) :=
  '(buf, _) ← NewWithSize 10 5;
  mret buf.

End ReadUnread.
End ReadUnread.

(** ** The sibling revision: [Next]/[Consume], a constructor that panics *)

Module NextConsume.
Section NextConsume.
Context {T : Type} `{ZeroValue T}.
Import Buffer.

(** [func (b *Buffer[T]) Buffered() int] *)
Definition Buffered (b : t T) : Z :=
  GoInt.sub (position.AbsolutePos (write b)) (position.AbsolutePos (read b)).

(** [func (b *Buffer[T]) Next() (element T, ok bool)] *)
Definition Next (b : t T) : run ((T * bool) * t T) :=
  if Buffered b <=? 0 then mret ((zero_value, false), b)
  else
    let '(row, col) := bufferPos b (read b) in
    chunk ← index (buffers b) row;
    element ← index chunk col;
    mret ((element, true), b).

(** [func (b *Buffer[T]) Consume()] *)
Definition Consume (b : t T) : run (t T) :=
  r ← position.Move (read b) 1;
  mret (set_read b r).

(** [func NewWithSize[T any](rowSize, rows int) (buf *Buffer[T])] *)
Definition NewWithSize (rowSize rows : Z) : run (t T) :=
  if rowSize <=? 0 then Abort Raised
  else if rows <=? 0 then Abort Raised
  else
    bufs ← make_cap rows;
    Grow (GoInt.mul rows rowSize) (fresh rowSize bufs).

(** [func New[T any]() (buf *Buffer[T])] *)
Definition New : run (t T) := NewWithSize 10 5.

End NextConsume.
End NextConsume.

(** The consuming read as the specification layers it on the other surface:
    peek; when an element is there, advance; answer what the peek did. *)
Definition Read_from_Next {T : Type} `{ZeroValue T} (b : Buffer.t T)
  : run ((T * bool) * Buffer.t T) :=
  '(element, ok, b) ← NextConsume.Next b;
  if ok : bool then b ← NextConsume.Consume b; mret (element, ok, b)
  else mret (element, ok, b).

(** ** Runs of the surface of [buffer.go] *)

Section Runs.
Context {T : Type} `{ZeroValue T}.
Import Buffer ReadUnread.

(** A writer and a reader taking turns on one buffer. *)
Inductive op : Type :=
| OpWrite (x : T)
| OpRead.

(** The calls in order; the answers of the reads, in order. *)
Fixpoint exec (ops : list op) (b : t T) : run (list (T * bool) * t T) :=
  match ops with
  | [] => mret ([], b)
  | OpWrite x :: ops =>
      b ← Write x b;
      exec ops b
  | OpRead :: ops =>
      '(a, b) ← Read b;
      '(answers, b) ← exec ops b;
      mret (a :: answers, b)
  end.

(** The elements handed to [Write], in order. *)
Fixpoint written (ops : list op) : list T :=
  match ops with
  | [] => []
  | OpWrite x :: ops => x :: written ops
  | OpRead :: ops => written ops
  end.

(** How many elements are left unread after [ops], starting with [n] of
    them; [None] when some read comes while nothing is unread. *)
Fixpoint unread_after (n : nat) (ops : list op) : option nat :=
  match ops with
  | [] => Some n
  | OpWrite _ :: ops => unread_after (S n) ops
  | OpRead :: ops =>
      match n with
      | O => None
      | S n => unread_after n ops
      end
  end.

(** [n] reads in a row. *)
Fixpoint read_n (n : nat) (b : t T) : run (list (T * bool) * t T) :=
  match n with
  | O => mret ([], b)
  | S n =>
      '(a, b) ← Read b;
      '(answers, b) ← read_n n b;
      mret (a :: answers, b)
  end.

(** Reading until [buffered] says that nothing is left. *)
Definition drain (b : t T) : run (list (T * bool) * t T) :=
  read_n (Z.to_nat (buffered b)) b.

(** The calls a client can make, as the table-driven test of the package
    lists them.  A session keeps the checkpoints it has taken, the latest
    first; [CallRollback k] hands the [k]-th of them back, and [State{}]
    when there is none. *)
Inductive call : Type :=
| CallWrite (x : T)
| CallRead
| CallUnread
| CallState
| CallRollback (k : nat)
| CallCommit
| CallGrow (size : Z).

Definition session : Type := t T * list State.t.

Definition step (c : call) (s : session) : run session :=
  let '(b, saved) := s in
  match c with
  | CallWrite x => b ← Write x b; mret (b, saved)
  | CallRead => '(_, b) ← Read b; mret (b, saved)
  | CallUnread => b ← Unread b; mret (b, saved)
  | CallState => mret (b, State b :: saved)
  | CallRollback k => mret (snd (Rollback (nth k saved State.empty) b), saved)
  | CallCommit => b ← Commit b; mret (b, saved)
  | CallGrow size => b ← Grow size b; mret (b, saved)
  end.

Fixpoint run_calls (cs : list call) (s : session) : run session :=
  match cs with
  | [] => mret s
  | c :: cs => s ← step c s; run_calls cs s
  end.

Definition is_write (c : call) : bool :=
  match c with
  | CallWrite _ => true
  | _ => false
  end.

(** The number of [Write] calls among [cs]. *)
Definition writes_in (cs : list call) : Z := len (filter is_write cs).

(** [b] is what a buffer from [NewWithSize] has become after the calls
    [cs], none of which panicked. *)
Definition reached_by (cs : list call) (b : t T) : Prop :=
  exists rowSize rows b0 saved,
    NewWithSize rowSize rows = Ret (Some b0, None) /\
    run_calls cs (b0, []) = Ret (b, saved).

End Runs.

Arguments op T : clear implicits.
Arguments call T : clear implicits.

(** ** The representation invariant *)

(** The position of absolute index [a] in rows of [rowSize]. *)
Definition pos_of (rowSize a : Z) : position.t :=
  position.mk rowSize (Z.quot a rowSize) (Z.rem a rowSize).

Section Invariant.
Context {T : Type} `{ZeroValue T}.
Import Buffer.

(** The read position stands at absolute index [r] and the write position
    at [w], the read position not after the write position; the first row
    kept is not after the row of the write position, the rows kept reach up
    to the write position, and every row is a full row.  The bound on [w]
    keeps every intermediate sum and difference inside [int]. *)
Definition inv (r w : Z) (b : t T) : Prop :=
  0 < rowSize b /\
  read b = pos_of (rowSize b) r /\
  write b = pos_of (rowSize b) w /\
  0 <= r <= w /\
  2 * w < GoInt.int_max /\
  0 <= startRow b <= Z.quot w (rowSize b) /\
  w <= (startRow b + len (buffers b)) * rowSize b /\
  Forall (fun row => len row = rowSize b) (buffers b).

(** A checkpoint taken from a buffer of [rowSize] whose write position has
    not passed [w]. *)
Definition checkpoint_ok (rowSize w : Z) (st : State.t) : Prop :=
  State.init st = true /\
  exists r, 0 <= r <= w /\ State.read st = pos_of rowSize r.

(** The slot that holds absolute index [a]. *)
Definition cell (b : t T) (a : Z) : run T :=
  row ← index (buffers b) (Z.quot a (rowSize b) - startRow b);
  index row (Z.rem a (rowSize b)).

(** The slots from absolute index [lo] on hold [xs]. *)
Definition holds (b : t T) (lo : Z) (xs : list T) : Prop :=
  forall (i : nat) (x : T), xs !! i = Some x -> cell b (lo + Z.of_nat i) = Ret x.

(** [b] stores [xs] from [lo] up to its write position, [lo] is not before
    the first row kept, and the read position [r] is not before [lo]. *)
Definition rep (b : t T) (lo r : Z) (xs : list T) : Prop :=
  inv r (lo + len xs) b /\
  startRow b * rowSize b <= lo <= r /\
  holds b lo xs.

End Invariant.

(** ** Runs of the surface of the sibling revision *)

Section PeekRuns.
Context {T : Type} `{ZeroValue T}.
Import Buffer NextConsume.

(** A writer and a reader taking turns, the reader taking an element by
    [Next] and then, when there is one, [Consume]. *)
Fixpoint exec_peek (ops : list (op T)) (b : t T) : run (list (T * bool) * t T) :=
  match ops with
  | [] => mret ([], b)
  | OpWrite x :: ops =>
      b ← Write x b;
      exec_peek ops b
  | OpRead :: ops =>
      '(a, b) ← Read_from_Next b;
      '(answers, b) ← exec_peek ops b;
      mret (a :: answers, b)
  end.

(** The calls of a client of this revision, as its table-driven test lists
    them; checkpoints are kept as in [session]. *)
Inductive peek_call : Type :=
| PeekWrite (x : T)
| PeekNext
| PeekConsume
| PeekState
| PeekRollback (k : nat)
| PeekCommit
| PeekGrow (size : Z).

Definition peek_step (c : peek_call) (s : session) : run session :=
  let '(b, saved) := s in
  match c with
  | PeekWrite x => b ← Write x b; mret (b, saved)
  | PeekNext => '(_, b) ← Next b; mret (b, saved)
  | PeekConsume => b ← Consume b; mret (b, saved)
  | PeekState => mret (b, State b :: saved)
  | PeekRollback k => mret (snd (Rollback (nth k saved State.empty) b), saved)
  | PeekCommit => b ← Commit b; mret (b, saved)
  | PeekGrow size => b ← Grow size b; mret (b, saved)
  end.

Fixpoint run_peek_calls (cs : list peek_call) (s : session) : run session :=
  match cs with
  | [] => mret s
  | c :: cs => s ← peek_step c s; run_peek_calls cs s
  end.

(** [b] is what a buffer from this revision's [NewWithSize] has become after
    the calls [cs], none of which panicked. *)
Definition peek_reached_by (cs : list peek_call) (b : t T) : Prop :=
  exists rowSize rows b0 saved,
    NewWithSize rowSize rows = Ret b0 /\
    run_peek_calls cs (b0, []) = Ret (b, saved).

(** What this revision keeps: the positions stand at [r] and [w], in either
    order; the first row kept is not after the row of the read position;
    the rows kept reach up to the write position and are full rows. *)
Definition peek_inv (r w : Z) (b : t T) : Prop :=
  0 < rowSize b /\
  read b = pos_of (rowSize b) r /\
  write b = pos_of (rowSize b) w /\
  0 <= r /\ 0 <= w /\
  0 <= startRow b <= Z.quot r (rowSize b) /\
  w <= (startRow b + len (buffers b)) * rowSize b /\
  Forall (fun row => len row = rowSize b) (buffers b).

End PeekRuns.

Arguments peek_call T : clear implicits.

(** ** Scenarios of the package's tests, over runes, in rows of five *)

Definition runes (s : string) : list ascii := list_ascii_of_string s.

(** [NewWithSize[rune](5, 1)]: one row asked for, two allocated. *)
Definition buffer_5_1 : Buffer.t ascii :=
  Buffer.fresh 5 [replicate 5 zero; replicate 5 zero].

(** Twelve writes, seven reads and a commit ("read after commit remove
    rows"). *)
Definition commit_after_reads : list (call ascii) :=
  map CallWrite (runes "123456789012") ++ replicate 7 CallRead ++ [CallCommit].

(** Six writes, five reads, then a commit. *)
Definition six_five_commit : list (call ascii) :=
  map CallWrite (runes "abcdef") ++ replicate 5 CallRead ++ [CallCommit].

(** "state and rollback", up to the checkpoint. *)
Definition before_checkpoint : list (call ascii) :=
  map CallWrite (runes "abc") ++ [CallCommit; CallRead].

(** The buffer those calls leave behind. *)
Definition at_checkpoint : Buffer.t ascii :=
  Buffer.mk 5 0 [runes "abc" ++ replicate 2 zero; replicate 5 zero]
    (position.mk 5 0 1) (position.mk 5 0 3).

(** "state and rollback", between the checkpoint and the rollback. *)
Definition after_checkpoint : list (op ascii) :=
  [OpRead; OpRead; OpWrite "d"%char].

(** "multiple EOF at end" of the [Next]/[Consume] tests: one write, the
    element taken, and one more [Consume]; the test expects [Buffered] to
    be 0 before and after the second [Consume]. *)
Definition consume_at_end : run (Z * Z) :=
  b ← NextConsume.NewWithSize 5 1;
  b ← Buffer.Write "a"%char b;
  '(_, b) ← NextConsume.Next b;
  b ← NextConsume.Consume b;
  let before := NextConsume.Buffered b in
  b ← NextConsume.Consume b;
  mret (before, NextConsume.Buffered b).

(** Six writes and five reads: the read position has reached row 1. *)
Definition read_up_to_row_1 : Buffer.t ascii :=
  Buffer.mk 5 0 [runes "abcde"; runes "f" ++ replicate 4 zero]
    (position.mk 5 1 0) (position.mk 5 1 1).

(** What [six_five_commit] leaves behind: the commit has dropped row 0. *)
Definition committed_in_row_1 : Buffer.t ascii :=
  Buffer.mk 5 1 [runes "f" ++ replicate 4 zero]
    (position.mk 5 1 0) (position.mk 5 1 1).

(** Five [Consume] calls on an empty buffer, then a commit: the read
    position is in row 1, the write position in row 0. *)
Definition overrun_then_commit : list (peek_call ascii) :=
  replicate 5 PeekConsume ++ [PeekCommit].

(** What [overrun_then_commit] leaves behind. *)
Definition overrun_committed : Buffer.t ascii :=
  Buffer.mk 5 1 [replicate 5 zero] (position.mk 5 1 0) (position.mk 5 0 0).

(** * Facts

    ** Arithmetic of [int] *)

Lemma wrap_id (z : Z) :
  GoInt.int_min <= z <= GoInt.int_max -> GoInt.wrap z = z.
Proof.
  unfold GoInt.wrap, GoInt.int_min, GoInt.int_max. intros Hz.
  rewrite Z.mod_small; lia.
Qed.

Lemma wrap_in_range (z : Z) : GoInt.int_min <= GoInt.wrap z <= GoInt.int_max.
Proof.
  unfold GoInt.wrap, GoInt.int_min, GoInt.int_max.
  pose proof (Z.mod_pos_bound (z + 2 ^ 63) (2 ^ 64) ltac:(lia)). lia.
Qed.

Lemma int_bounds :
  GoInt.int_min = - 9223372036854775808 /\ GoInt.int_max = 9223372036854775807.
Proof. split; reflexivity. Qed.

Ltac int_lia := pose proof int_bounds; lia.

(** Quotient and remainder of a position that is not negative. *)
Lemma quot_bounds (a d : Z) :
  0 <= a -> 0 < d ->
  0 <= Z.quot a d <= a /\ 0 <= Z.rem a d < d /\
  a = Z.quot a d * d + Z.rem a d.
Proof.
  intros Ha Hd. rewrite Z.quot_div_nonneg, Z.rem_mod_nonneg by lia.
  pose proof (Z.mod_pos_bound a d Hd). pose proof (Z.div_mod a d ltac:(lia)).
  pose proof (Z.div_pos a d Ha Hd).
  assert (a `div` d <= a) by (apply Z.div_le_upper_bound; nia).
  nia.
Qed.

(** ** Positions *)

Lemma AbsolutePos_pos_of (rs a : Z) :
  0 < rs -> 0 <= a <= GoInt.int_max -> position.AbsolutePos (pos_of rs a) = a.
Proof.
  intros Hrs Ha. unfold position.AbsolutePos, pos_of, GoInt.add, GoInt.mul. simpl.
  destruct (quot_bounds a rs) as (Hq & Hr & Heq); [lia..|].
  pose proof int_bounds.
  rewrite (wrap_id (_ * _)) by nia.
  rewrite wrap_id; lia.
Qed.

(** [Move] lands on the position of the clamped sum. *)
Lemma Move_pos_of (p : position.t) (s : Z) :
  0 < position.rowSize p ->
  position.Move p s =
    Ret (pos_of (position.rowSize p)
           (Z.max 0 (GoInt.add (position.AbsolutePos p) s))).
Proof.
  intros Hrs. unfold position.Move, GoInt.quot, GoInt.rem.
  destruct (Z.eqb_spec (position.rowSize p) 0) as [|_]; [lia|].
  set (a := GoInt.add (position.AbsolutePos p) s).
  assert (Hc : (if a <? 0 then 0 else a) = Z.max 0 a)
    by (destruct (Z.ltb_spec a 0); lia).
  rewrite Hc. simpl. unfold pos_of. do 2 f_equal.
  pose proof (wrap_in_range (position.AbsolutePos p + s)) as Hw.
  fold (GoInt.add (position.AbsolutePos p) s) in Hw. fold a in Hw.
  destruct (quot_bounds (Z.max 0 a) (position.rowSize p)) as (Hq & _); [lia..|].
  apply wrap_id. int_lia.
Qed.

(** ** Slices *)

Section SliceFacts.
Context {A : Type}.
Implicit Types (s : list A) (i : Z).

Lemma index_Ret s i x :
  index s i = Ret x <-> 0 <= i /\ s !! Z.to_nat i = Some x.
Proof.
  unfold index. destruct (Z.ltb_spec i 0) as [Hi|Hi].
  - split; [discriminate|lia].
  - destruct (s !! Z.to_nat i) as [y|]; split.
    + intros [= ->]. auto.
    + intros [_ [= ->]]. reflexivity.
    + discriminate.
    + intros [_ [=]].
Qed.

Lemma index_in_range s i :
  0 <= i < len s -> exists x, index s i = Ret x.
Proof.
  intros Hi. unfold len in Hi.
  destruct (lookup_lt_is_Some_2 s (Z.to_nat i)) as [x Hx]; [lia|].
  exists x. apply index_Ret. split; [lia|exact Hx].
Qed.

Lemma store_Ret s i x :
  0 <= i < len s -> store s i x = Ret (<[Z.to_nat i := x]> s).
Proof.
  intros Hi. unfold store. destruct (index_in_range s i Hi) as [y ->]. reflexivity.
Qed.

Lemma len_nonneg s : 0 <= len s.
Proof. unfold len. lia. Qed.

Lemma len_app s1 s2 : len (s1 ++ s2) = len s1 + len s2.
Proof. unfold len. rewrite length_app. lia. Qed.

Lemma len_replicate (n : nat) (x : A) : len (replicate n x) = Z.of_nat n.
Proof. unfold len. rewrite length_replicate. reflexivity. Qed.

Lemma len_insert s (n : nat) (x : A) : len (<[n := x]> s) = len s.
Proof. unfold len. rewrite length_insert. reflexivity. Qed.

Lemma slice_from_Ret s i s' :
  slice_from s i = Ret s' <-> (0 <= i <= len s /\ s' = drop (Z.to_nat i) s).
Proof.
  unfold slice_from.
  destruct (Z.leb_spec 0 i), (Z.leb_spec i (len s)); simpl; split;
    try discriminate; try lia.
  - intros [= <-]. auto.
  - intros [_ ->]. reflexivity.
Qed.

End SliceFacts.

Lemma quot_in_range (a d : Z) :
  GoInt.in_range a -> 0 < d -> GoInt.in_range (Z.quot a d) .
Proof.
  unfold GoInt.in_range. intros Ha Hd. pose proof int_bounds as [Hmin Hmax].
  destruct (Z.le_gt_cases 0 a) as [Hpos|Hneg].
  - destruct (quot_bounds a d) as (Hq & _); lia.
  - destruct (quot_bounds (- a) d) as (Hq & _); [lia..|].
    rewrite Z.quot_opp_l in Hq by lia. lia.
Qed.

Lemma quot_mono (a b d : Z) : 0 < d -> a <= b -> Z.quot a d <= Z.quot b d.
Proof. intros Hd Hab. apply Z.quot_le_mono; lia. Qed.

(** ** [Grow] *)

Section GrowFacts.
Context {T : Type} `{ZeroValue T}.
Import Buffer.

#[local] Abbreviation zero_row rs := (replicate (Z.to_nat rs) (zero_value : T)).

(** The loop only appends fresh rows. *)
Lemma grow_loop_appends (fuel : nat) (rs rows i : Z) (bufs bufs' : list (list T)) :
  grow_loop fuel rs rows i bufs = Ret bufs' ->
  exists k : nat, bufs' = bufs ++ replicate k (zero_row rs).
Proof.
  revert i bufs. induction fuel as [|fuel IH]; intros i bufs; simpl.
  - destruct (i <=? rows); [discriminate|]. intros [= <-].
    exists 0%nat. simpl. rewrite app_nil_r. reflexivity.
  - destruct (i <=? rows).
    + unfold make. destruct (rs <? 0); [discriminate|]. simpl.
      intros Hloop. apply IH in Hloop as [k ->].
      exists (S k). rewrite <- app_assoc. reflexivity.
    + intros [= <-]. exists 0%nat. simpl. rewrite app_nil_r. reflexivity.
Qed.

(** Below [int_max] the loop stops after [rows - i + 1] turns. *)
Lemma grow_loop_runs (fuel : nat) (rs rows i : Z) (bufs : list (list T)) :
  0 <= rs -> 0 <= i -> rows < GoInt.int_max ->
  Z.of_nat fuel = Z.max 0 (rows - i + 1) ->
  grow_loop fuel rs rows i bufs = Ret (bufs ++ replicate fuel (zero_row rs)).
Proof.
  intros Hrs. revert i bufs.
  induction fuel as [|fuel IH]; intros i bufs Hi Hrows Hfuel; simpl.
  - destruct (Z.leb_spec i rows); [lia|]. rewrite app_nil_r. reflexivity.
  - destruct (Z.leb_spec i rows); [|lia].
    unfold make. destruct (Z.ltb_spec rs 0); [lia|]. simpl.
    unfold GoInt.add. rewrite wrap_id by int_lia.
    rewrite IH by lia. rewrite <- app_assoc. reflexivity.
Qed.

(** Up to [int_max] it never stops. *)
Lemma grow_loop_never (fuel : nat) (rs i : Z) (bufs bufs' : list (list T)) :
  i <= GoInt.int_max -> grow_loop fuel rs GoInt.int_max i bufs <> Ret bufs'.
Proof.
  revert i bufs. induction fuel as [|fuel IH]; intros i bufs Hi; simpl.
  - destruct (Z.leb_spec i GoInt.int_max); [discriminate|lia].
  - destruct (Z.leb_spec i GoInt.int_max); [|lia].
    destruct (make rs) as [row|]; [|discriminate]. simpl.
    apply IH. apply wrap_in_range.
Qed.

(** When it stops, the rows reach past [rows]. *)
Lemma grow_loop_exit (fuel : nat) (rs rows i : Z) (bufs bufs' : list (list T)) :
  grow_loop fuel rs rows i bufs = Ret bufs' ->
  rows <= GoInt.int_max -> i = len bufs -> rows < len bufs'.
Proof.
  intros Hloop Hrows. revert i bufs Hloop.
  induction fuel as [|fuel IH]; intros i bufs; simpl.
  - destruct (Z.leb_spec i rows); [discriminate|]. intros [= <-]. lia.
  - destruct (Z.leb_spec i rows) as [Hle|Hgt]; [|intros [= <-]; lia].
    destruct (make rs) as [row|]; [|discriminate]. simpl. intros Hloop Hi.
    destruct (Z.eq_dec rows GoInt.int_max) as [->|Hne].
    + exfalso. eapply grow_loop_never; [|exact Hloop]. apply wrap_in_range.
    + apply (IH _ _ Hloop). unfold GoInt.add.
      pose proof (len_nonneg bufs).
      rewrite wrap_id by int_lia. rewrite len_app. unfold len at 2. simpl. lia.
Qed.

Lemma Grow_appends (size : Z) (b b' : t T) :
  Grow size b = Ret b' ->
  exists k : nat,
    b' = set_buffers b (buffers b ++ replicate k (zero_row (rowSize b))).
Proof.
  unfold Grow. destruct (GoInt.quot size (rowSize b)) as [rows|]; [|discriminate].
  simpl. destruct (grow_loop _ _ _ _ _) as [bufs|] eqn:Hloop; [|discriminate].
  simpl. intros [= <-]. apply grow_loop_appends in Hloop as [k ->]. eauto.
Qed.

Lemma Grow_Ret (size : Z) (b : t T) :
  0 < rowSize b -> GoInt.in_range size ->
  Z.quot size (rowSize b) < GoInt.int_max ->
  Grow size b =
    Ret (set_buffers b
           (buffers b ++
            replicate (Z.to_nat (Z.quot size (rowSize b) - len (buffers b) + 1))
              (zero_row (rowSize b)))).
Proof.
  intros Hrs Hsize Hrows. unfold Grow, GoInt.quot.
  destruct (Z.eqb_spec (rowSize b) 0); [lia|]. simpl.
  rewrite (wrap_id (Z.quot _ _)) by (apply quot_in_range; assumption).
  rewrite grow_loop_runs; [reflexivity|lia|apply len_nonneg|assumption|lia].
Qed.

End GrowFacts.

(** ** The invariant under [Write] *)

Lemma bind_Ret {A B : Type} (k : A -> run B) (a : A) : (Ret a ≫= k) = k a.
Proof. reflexivity. Qed.

Lemma bind_Ret_inv {A B : Type} (k : A -> run B) (m : run A) (y : B) :
  (m ≫= k) = Ret y -> exists a, m = Ret a /\ k a = Ret y.
Proof. destruct m as [a|f]; [eauto|discriminate]. Qed.

Lemma quot_rem_inj (a a' d : Z) :
  0 <= a -> 0 <= a' -> 0 < d ->
  Z.quot a d = Z.quot a' d -> Z.rem a d = Z.rem a' d -> a = a'.
Proof.
  intros Ha Ha' Hd Hq Hr.
  destruct (quot_bounds a d) as (_ & _ & Ea); [lia..|].
  destruct (quot_bounds a' d) as (_ & _ & Ea'); [lia..|].
  rewrite Ea, Ea', Hq, Hr. reflexivity.
Qed.

Lemma quot_lt_iff (a n d : Z) : 0 <= a -> 0 < d -> (Z.quot a d < n <-> a < n * d).
Proof.
  intros Ha Hd. destruct (quot_bounds a d) as (Hq & Hr & Ea); [lia..|]. split; nia.
Qed.

Lemma quot_le_iff (a n d : Z) : 0 <= a -> 0 < d -> (n <= Z.quot a d <-> n * d <= a).
Proof.
  intros Ha Hd. destruct (quot_bounds a d) as (Hq & Hr & Ea); [lia..|]. split; nia.
Qed.

Section InvFacts.
Context {T : Type} `{ZeroValue T}.
Import Buffer.
Implicit Types (b : t T) (r w a : Z).

#[local] Abbreviation zero_row rs := (replicate (Z.to_nat rs) (zero_value : T)).

Lemma inv_AbsolutePos r w b :
  inv r w b ->
  position.AbsolutePos (read b) = r /\ position.AbsolutePos (write b) = w.
Proof.
  intros (Hrs & -> & -> & Hrw & Hbound & _).
  split; apply AbsolutePos_pos_of; int_lia.
Qed.

Lemma cell_Ret b a y :
  cell b a = Ret y <->
  exists row,
    index (buffers b) (Z.quot a (rowSize b) - startRow b) = Ret row /\
    index row (Z.rem a (rowSize b)) = Ret y.
Proof.
  unfold cell. split.
  - intros Hc. apply bind_Ret_inv in Hc. exact Hc.
  - intros (row & -> & Hy). exact Hy.
Qed.

(** Every slot between the first row kept and the write position exists. *)
Lemma cell_in_range r w b a :
  inv r w b -> startRow b * rowSize b <= a < w -> exists y, cell b a = Ret y.
Proof.
  intros (Hrs & _ & _ & Hrw & Hbound & Hs & Hcap & Hrows) Ha.
  assert (Ha0 : 0 <= a) by nia.
  destruct (quot_bounds a (rowSize b)) as (Hq & Hr & Ea); [lia..|].
  destruct (index_in_range (buffers b) (Z.quot a (rowSize b) - startRow b))
    as [row Hrow].
  { split; [apply Zle_minus_le_0, quot_le_iff; lia|].
    enough (Z.quot a (rowSize b) < startRow b + len (buffers b)) by lia.
    apply quot_lt_iff; lia. }
  assert (Hlen : len row = rowSize b).
  { apply index_Ret in Hrow as [_ Hrow].
    exact (proj1 (Forall_lookup _ _) Hrows _ _ Hrow). }
  destruct (index_in_range row (Z.rem a (rowSize b))) as [y Hy]; [lia|].
  exists y. apply cell_Ret. eauto.
Qed.

(** [Write] stores at the write position, keeps every other slot, and
    moves the write position one further. *)
Lemma Write_inv r w b (x : T) :
  inv r w b -> 2 * (w + 1) < GoInt.int_max ->
  exists b',
    Write x b = Ret b' /\ inv r (w + 1) b' /\
    startRow b' = startRow b /\ rowSize b' = rowSize b /\ read b' = read b /\
    cell b' w = Ret x /\
    (forall a y, 0 <= a -> a <> w -> cell b a = Ret y -> cell b' a = Ret y).
Proof.
  intros Hinv Hb.
  destruct (inv_AbsolutePos _ _ _ Hinv) as [_ Habs].
  destruct Hinv as (Hrs & Hread & Hwrite & Hrw & Hbound & Hs & Hcap & Hrows).
  pose proof int_bounds as [Hmin Hmax].
  destruct (quot_bounds w (rowSize b)) as (Hq & Hr & Ew); [lia..|].
  destruct (quot_bounds (w + 1) (rowSize b)) as (Hq1 & Hr1 & Ew1); [lia..|].
  pose proof (quot_mono w (w + 1) (rowSize b) Hrs ltac:(lia)) as Hmono.
  unfold Write. rewrite Habs. unfold GoInt.add at 1. rewrite wrap_id by lia.
  rewrite Grow_Ret by (unfold GoInt.in_range; lia). rewrite bind_Ret.
  set (extra := replicate _ _).
  set (bufs := buffers b ++ extra).
  assert (Hlen : Z.quot (w + 1) (rowSize b) < len bufs).
  { unfold bufs, extra. rewrite len_app, len_replicate. lia. }
  assert (Hfull : Forall (fun row => len row = rowSize b) bufs).
  { apply Forall_app. split; [exact Hrows|]. apply Forall_replicate.
    rewrite len_replicate. lia. }
  cbn [bufferPos write set_buffers startRow buffers]. rewrite Hwrite.
  cbn [position.Row position.Col pos_of].
  unfold GoInt.sub. rewrite wrap_id by lia.
  set (row := Z.quot w (rowSize b) - startRow b).
  set (col := Z.rem w (rowSize b)).
  destruct (index_in_range bufs row) as [chunk Hchunk]; [lia|].
  rewrite Hchunk, bind_Ret.
  assert (Hclen : len chunk = rowSize b).
  { apply index_Ret in Hchunk as [_ Hchunk].
    exact (proj1 (Forall_lookup _ _) Hfull _ _ Hchunk). }
  rewrite store_Ret by lia. rewrite bind_Ret.
  rewrite Move_pos_of by exact Hrs. rewrite bind_Ret.
  cbn [position.rowSize pos_of].
  rewrite (AbsolutePos_pos_of _ _ Hrs) by lia.
  unfold GoInt.add. rewrite wrap_id by lia. rewrite Z.max_r by lia.
  eexists. split; [reflexivity|].
  assert (Hrow_lt : (Z.to_nat row < length bufs)%nat) by (unfold len in Hlen; lia).
  assert (Hcol_lt : (Z.to_nat col < length chunk)%nat) by (unfold len in Hclen; lia).
  split; [|split; [reflexivity|split; [reflexivity|split; [reflexivity|split]]]].
  - unfold inv. cbn [rowSize read write startRow buffers set_write set_buffers].
    rewrite len_insert. repeat split; try assumption; try lia.
    + nia.
    + apply Forall_insert; [exact Hfull|]. rewrite len_insert. exact Hclen.
  - apply cell_Ret. cbn [rowSize read write startRow buffers set_write set_buffers].
    fold row col. exists (<[Z.to_nat col := x]> chunk). split.
    + apply index_Ret. split; [lia|]. apply list_lookup_insert_eq. exact Hrow_lt.
    + apply index_Ret. split; [lia|]. apply list_lookup_insert_eq. exact Hcol_lt.
  - intros a y Ha Hne Hcell. apply cell_Ret in Hcell as (rowa & Hrowa & Hy).
    apply cell_Ret. cbn [rowSize read write startRow buffers set_write set_buffers].
    apply index_Ret in Hrowa as [Hra Hrowa]. apply index_Ret in Hy as [Hca Hy].
    apply index_Ret in Hchunk as [_ Hchunk].
    destruct (Z.eq_dec (Z.quot a (rowSize b)) (Z.quot w (rowSize b))) as [Eq|Ne].
    + exists (<[Z.to_nat col := x]> chunk). rewrite Eq. fold row. split.
      * apply index_Ret. split; [lia|]. apply list_lookup_insert_eq. exact Hrow_lt.
      * apply index_Ret. split; [lia|].
        assert (Z.rem a (rowSize b) <> col).
        { intros Er. apply Hne. eapply quot_rem_inj; eauto; lia. }
        rewrite list_lookup_insert_ne by lia.
        rewrite Eq in Hrowa. fold row in Hrowa.
        unfold bufs in Hchunk. rewrite (lookup_app_l_Some _ _ _ _ Hrowa) in Hchunk.
        injection Hchunk as <-. exact Hy.
    + exists rowa. split; [|apply index_Ret; auto].
      apply index_Ret. split; [lia|].
      rewrite list_lookup_insert_ne by (unfold row; lia).
      apply lookup_app_l_Some. exact Hrowa.
Qed.

End InvFacts.

(** ** The invariant under [Read] and [Unread] *)

Section ReadFacts.
Context {T : Type} `{ZeroValue T}.
Import Buffer ReadUnread.
Implicit Types (b : t T) (r w a : Z).

Lemma buffered_inv r w b : inv r w b -> buffered b = w - r.
Proof.
  intros Hinv. destruct (inv_AbsolutePos _ _ _ Hinv) as [Hr Hw].
  destruct Hinv as (_ & _ & _ & Hrw & Hbound & _).
  unfold buffered, GoInt.sub. rewrite Hr, Hw. apply wrap_id. int_lia.
Qed.

(** [Read] in terms of the slot under the read position. *)
Lemma Read_inv r w b :
  inv r w b ->
  Read b =
    if w - r <=? 0 then Ret ((zero_value, false), b)
    else x ← cell b r;
         Ret ((x, true), set_read b (pos_of (rowSize b) (r + 1))).
Proof.
  intros Hinv. unfold Read. rewrite (buffered_inv _ _ _ Hinv).
  destruct (inv_AbsolutePos _ _ _ Hinv) as [Habs _].
  destruct Hinv as (Hrs & Hread & Hwrite & Hrw & Hbound & Hs & Hcap & Hrows).
  pose proof int_bounds as [Hmin Hmax].
  destruct (Z.leb_spec (w - r) 0) as [|Hlt]; [reflexivity|].
  destruct (quot_bounds r (rowSize b)) as (Hq & Hr & Er); [lia..|].
  destruct (quot_bounds w (rowSize b)) as (Hqw & _); [lia..|].
  rewrite Move_pos_of, Habs by (rewrite Hread; exact Hrs).
  unfold GoInt.add. rewrite wrap_id, Z.max_r by lia.
  unfold bufferPos, cell. rewrite Hread.
  cbn [position.Row position.Col position.rowSize pos_of].
  unfold GoInt.sub. rewrite wrap_id by lia.
  destruct (index (buffers b) _) as [row|]; [|reflexivity].
  rewrite !bind_Ret. destruct (index row _) as [x|]; reflexivity.
Qed.

Lemma inv_read_step r w b :
  inv r w b -> r < w -> inv (r + 1) w (set_read b (pos_of (rowSize b) (r + 1))).
Proof.
  intros (Hrs & Hread & Hwrite & Hrw & Hbound & Hs & Hcap & Hrows) Hlt.
  unfold inv. cbn [rowSize read write startRow buffers set_read].
  repeat split; try assumption; lia.
Qed.

Lemma Unread_inv r w b :
  inv r w b ->
  exists b', Unread b = Ret b' /\ inv (Z.max 0 (r - 1)) w b' /\
             startRow b' = startRow b /\ rowSize b' = rowSize b.
Proof.
  intros Hinv. destruct (inv_AbsolutePos _ _ _ Hinv) as [Habs _].
  destruct Hinv as (Hrs & Hread & Hwrite & Hrw & Hbound & Hs & Hcap & Hrows).
  pose proof int_bounds as [Hmin Hmax].
  unfold Unread. rewrite Move_pos_of, Habs by (rewrite Hread; exact Hrs).
  unfold GoInt.add. rewrite wrap_id by lia. rewrite bind_Ret.
  eexists. split; [reflexivity|]. split; [|split; reflexivity].
  unfold inv. cbn [rowSize read write startRow buffers set_read].
  rewrite Hread at 1. cbn [position.rowSize pos_of].
  replace (r + -1) with (r - 1) by lia.
  repeat split; try assumption; lia.
Qed.

End ReadFacts.

(** ** The invariant under the other calls, and along a session *)

Section CallFacts.
Context {T : Type} `{ZeroValue T}.
Import Buffer ReadUnread.
Implicit Types (b : t T) (r w a : Z).

#[local] Abbreviation zero_row rs := (replicate (Z.to_nat rs) (zero_value : T)).

Lemma len_drop {A : Type} (s : list A) (k : Z) :
  0 <= k <= len s -> len (drop (Z.to_nat k) s) = len s - k.
Proof. unfold len. rewrite length_drop. lia. Qed.

Lemma Commit_inv r w b b' :
  inv r w b -> Commit b = Ret b' ->
  inv r w b' /\ startRow b' = Z.quot r (rowSize b) /\ rowSize b' = rowSize b.
Proof.
  intros (Hrs & Hread & Hwrite & Hrw & Hbound & Hs & Hcap & Hrows).
  pose proof int_bounds as [Hmin Hmax].
  destruct (quot_bounds r (rowSize b)) as (Hq & Hr & Er); [lia..|].
  destruct (quot_bounds w (rowSize b)) as (Hqw & Hrw' & Ew); [lia..|].
  pose proof (quot_mono r w (rowSize b) Hrs ltac:(lia)) as Hmono.
  unfold Commit, bufferPos. rewrite Hread. cbn [position.Row pos_of].
  unfold GoInt.sub, GoInt.add. rewrite (wrap_id (_ - _)) by lia.
  rewrite (wrap_id (_ - _ - _)) by lia.
  destruct (slice_from _ _) as [bufs|] eqn:Hslice; [|discriminate].
  apply slice_from_Ret in Hslice as [Hk ->]. rewrite bind_Ret.
  cbn [startRow set_buffers]. rewrite wrap_id by lia. intros [= <-].
  cbn [rowSize read write startRow buffers set_startRow set_buffers].
  split; [|split; [lia|reflexivity]].
  unfold inv. cbn [rowSize read write startRow buffers set_startRow set_buffers].
  rewrite len_drop by exact Hk.
  repeat split; try assumption; try lia; try nia.
  apply Forall_drop. exact Hrows.
Qed.

Lemma Grow_inv r w b b' (size : Z) :
  inv r w b -> Grow size b = Ret b' ->
  inv r w b' /\ startRow b' = startRow b /\ rowSize b' = rowSize b /\
  read b' = read b.
Proof.
  intros (Hrs & Hread & Hwrite & Hrw & Hbound & Hs & Hcap & Hrows) Hgrow.
  apply Grow_appends in Hgrow as [k ->].
  split; [|repeat split].
  unfold inv. cbn [rowSize read write startRow buffers set_buffers].
  rewrite len_app, len_replicate.
  repeat split; try assumption; try lia; try nia.
  apply Forall_app. split; [exact Hrows|]. apply Forall_replicate.
  rewrite len_replicate. lia.
Qed.

Lemma Rollback_inv r w b (st : State.t) :
  inv r w b -> checkpoint_ok (rowSize b) w st ->
  exists r', inv r' w (snd (Rollback st b)) /\
             startRow (snd (Rollback st b)) = startRow b /\
             rowSize (snd (Rollback st b)) = rowSize b.
Proof.
  intros Hinv (Hinit & r0 & Hr0 & Hst). unfold Rollback, State.zero.
  rewrite Hinit. cbn [negb].
  destruct (_ <? _); [exists r; auto|].
  exists r0. cbn [snd]. split; [|split; reflexivity].
  destruct Hinv as (Hrs & Hread & Hwrite & Hrw & Hbound & Hs & Hcap & Hrows).
  unfold inv. cbn [rowSize read write startRow buffers set_read].
  repeat split; try assumption; lia.
Qed.

Lemma Rollback_empty b : Rollback State.empty b = (Some ZeroStateError, b).
Proof. reflexivity. Qed.

Lemma State_ok r w b : inv r w b -> checkpoint_ok (rowSize b) w (State b).
Proof.
  intros (Hrs & Hread & Hwrite & Hrw & _). split; [reflexivity|].
  exists r. split; [lia|exact Hread].
Qed.

Lemma checkpoint_ok_mono (rs w w' : Z) (st : State.t) :
  w <= w' -> checkpoint_ok rs w st -> checkpoint_ok rs w' st.
Proof.
  intros Hw (Hinit & r & Hr & Hst). split; [exact Hinit|].
  exists r. split; [lia|exact Hst].
Qed.

Lemma NewWithSize_inv (rs rows : Z) b :
  NewWithSize rs rows = Ret (Some b, None) ->
  inv 0 0 b /\ startRow b = 0 /\ rowSize b = rs /\
  exists k : nat, buffers b = replicate k (zero_row rs).
Proof.
  unfold NewWithSize. destruct (Z.leb_spec rs 0) as [|Hrs]; [discriminate|].
  unfold make_cap. destruct (rows <? 0); [discriminate|]. rewrite bind_Ret.
  destruct (Grow _ _) as [buf|] eqn:Hgrow; [|discriminate].
  rewrite bind_Ret. intros [= <-].
  apply Grow_appends in Hgrow as [k ->].
  cbn [rowSize read write startRow buffers set_buffers fresh app].
  split; [|repeat split; eauto].
  unfold inv. cbn [rowSize read write startRow buffers set_buffers fresh].
  pose proof int_bounds as [Hmin Hmax]. rewrite len_replicate.
  repeat split; try lia.
  - rewrite Z.quot_0_l by lia. lia.
  - apply Forall_replicate. rewrite len_replicate. lia.
Qed.

Lemma writes_in_cons (c : call T) (cs : list (call T)) :
  writes_in (c :: cs) = (if is_write c then 1 else 0) + writes_in cs.
Proof.
  unfold writes_in. rewrite filter_cons.
  destruct (decide (is_write c)) as [Hc|Hc]; destruct (is_write c); try done.
  - unfold len. simpl. lia.
Qed.

Lemma writes_in_nonneg (cs : list (call T)) : 0 <= writes_in cs.
Proof. apply len_nonneg. Qed.

Lemma step_inv (c : call T) r w b b' (saved saved' : list State.t) :
  inv r w b -> Forall (checkpoint_ok (rowSize b) w) saved ->
  2 * (w + writes_in [c]) + 2 < GoInt.int_max ->
  step c (b, saved) = Ret (b', saved') ->
  exists r', inv r' (w + writes_in [c]) b' /\
             Forall (checkpoint_ok (rowSize b') (w + writes_in [c])) saved' /\
             rowSize b' = rowSize b.
Proof.
  intros Hinv Hsaved Hbound. rewrite writes_in_cons in *.
  change (writes_in []) with 0 in *.
  destruct c as [x| | | |k| |size]; cbn [is_write step] in *;
    rewrite ?Z.add_0_r in *.
  - destruct (Write_inv _ _ _ x Hinv ltac:(lia)) as (b1 & -> & Hinv1 & _ & Hrs1 & _).
    rewrite bind_Ret. intros [= <- <-]. exists r. rewrite Hrs1.
    split; [exact Hinv1|]. split; [|reflexivity].
    eapply Forall_impl; [exact Hsaved|]. intros st. apply checkpoint_ok_mono. lia.
  - rewrite (Read_inv _ _ _ Hinv).
    destruct (Z.leb_spec (w - r) 0) as [|Hlt].
    + rewrite bind_Ret. intros [= <- <-]. eauto.
    + destruct (cell b r) as [x|]; [|discriminate]. rewrite !bind_Ret.
      intros [= <- <-]. exists (r + 1). split; [|auto].
      apply inv_read_step; [exact Hinv|lia].
  - destruct (Unread_inv _ _ _ Hinv) as (b1 & -> & Hinv1 & _ & Hrs1).
    rewrite bind_Ret. intros [= <- <-]. exists (Z.max 0 (r - 1)).
    rewrite Hrs1. auto.
  - intros [= <- <-]. exists r. split; [exact Hinv|]. split; [|reflexivity].
    constructor; [apply (State_ok _ _ _ Hinv)|exact Hsaved].
  - intros [= <- <-].
    destruct (nth_in_or_default k saved State.empty) as [Hin | ->].
    + apply list_elem_of_In in Hin.
      pose proof (proj1 (Forall_forall _ _) Hsaved _ Hin) as Hok.
      destruct (Rollback_inv _ _ _ _ Hinv Hok) as (r' & Hinv' & _ & Hrs').
      exists r'. rewrite Hrs'. auto.
    + rewrite Rollback_empty. eauto.
  - destruct (Commit b) as [b1|] eqn:Hcommit; [|discriminate].
    rewrite bind_Ret. intros [= <- <-].
    destruct (Commit_inv _ _ _ _ Hinv Hcommit) as (Hinv1 & _ & Hrs1).
    exists r. rewrite Hrs1. auto.
  - destruct (Grow size b) as [b1|] eqn:Hgrow; [|discriminate].
    rewrite bind_Ret. intros [= <- <-].
    destruct (Grow_inv _ _ _ _ _ Hinv Hgrow) as (Hinv1 & _ & Hrs1 & _).
    exists r. rewrite Hrs1. auto.
Qed.

Lemma run_calls_inv (cs : list (call T)) r w b b' (saved saved' : list State.t) :
  inv r w b -> Forall (checkpoint_ok (rowSize b) w) saved ->
  2 * (w + writes_in cs) + 2 < GoInt.int_max ->
  run_calls cs (b, saved) = Ret (b', saved') ->
  exists r', inv r' (w + writes_in cs) b' /\
             Forall (checkpoint_ok (rowSize b') (w + writes_in cs)) saved' /\
             rowSize b' = rowSize b.
Proof.
  revert r w b saved. induction cs as [|c cs IH]; intros r w b saved Hinv Hsaved.
  - change (writes_in []) with 0. rewrite Z.add_0_r. intros _ [= <- <-]. eauto.
  - rewrite writes_in_cons. intros Hbound. cbn [run_calls].
    destruct (step c (b, saved)) as [[b1 saved1]|] eqn:Hstep; [|discriminate].
    rewrite bind_Ret. intros Hrun.
    pose proof (writes_in_nonneg cs) as Hnn.
    pose proof (writes_in_cons c []) as Hone. change (writes_in []) with 0 in Hone.
    destruct (step_inv c _ _ _ _ _ _ Hinv Hsaved ltac:(lia) Hstep)
      as (r1 & Hinv1 & Hsaved1 & Hrs1).
    destruct (IH _ _ _ _ Hinv1 Hsaved1 ltac:(lia) Hrun)
      as (r2 & Hinv2 & Hsaved2 & Hrs2).
    exists r2.
    replace (w + (_ + writes_in cs)) with (w + writes_in [c] + writes_in cs)
      by lia.
    rewrite Hrs2 in *. rewrite Hrs1 in *. auto.
Qed.

(** What holds of every buffer a client can reach. *)
Lemma reached_inv (cs : list (call T)) b :
  reached_by cs b -> 2 * writes_in cs + 2 < GoInt.int_max ->
  exists r, inv r (writes_in cs) b.
Proof.
  intros (rs & rows & b0 & saved & Hnew & Hrun) Hbound.
  apply NewWithSize_inv in Hnew as (Hinv0 & _).
  assert (Hb0 : 2 * (0 + writes_in cs) + 2 < GoInt.int_max) by lia.
  destruct (run_calls_inv _ _ _ _ _ _ _ Hinv0 (Forall_nil_2 _) Hb0 Hrun)
    as (r & Hinv & _).
  exists r. exact Hinv.
Qed.

End CallFacts.

(** ** What the slots hold *)

Section RepFacts.
Context {T : Type} `{ZeroValue T}.
Import Buffer ReadUnread.
Implicit Types (b : t T) (lo r w a : Z) (xs : list T).

#[local] Abbreviation got := (fun x : T => (x, true)).

Lemma rep_nonneg b lo r xs : rep b lo r xs -> 0 <= lo.
Proof.
  intros ((Hrs & _ & _ & _ & _ & Hs & _) & Hlo & _). nia.
Qed.

Lemma Write_rep b lo r xs (x : T) :
  rep b lo r xs -> 2 * (lo + len xs + 1) < GoInt.int_max ->
  exists b', Write x b = Ret b' /\ rep b' lo r (xs ++ [x]) /\
             startRow b' = startRow b /\ rowSize b' = rowSize b.
Proof.
  intros Hrep Hbound. pose proof (rep_nonneg _ _ _ _ Hrep) as Hlo0.
  destruct Hrep as (Hinv & Hlo & Hholds).
  destruct (Write_inv _ _ _ x Hinv Hbound)
    as (b' & Hw & Hinv' & Hs' & Hrs' & _ & Hnew & Hframe).
  exists b'. split; [exact Hw|]. split; [|auto].
  split; [|split].
  - rewrite len_app. change (len [x]) with 1. rewrite Z.add_assoc. exact Hinv'.
  - rewrite Hs', Hrs'. exact Hlo.
  - intros i y Hi. apply lookup_app_Some in Hi as [Hi|[Hge Hi]].
    + apply Hframe; [lia| |apply Hholds, Hi].
      apply lookup_lt_Some in Hi. unfold len. lia.
    + assert (i = length xs) as ->.
      { apply lookup_lt_Some in Hi. simpl in Hi. lia. }
      rewrite Nat.sub_diag in Hi. injection Hi as <-. exact Hnew.
Qed.

Lemma rep_lookup b lo r xs :
  rep b lo r xs -> r < lo + len xs ->
  exists x, xs !! Z.to_nat (r - lo) = Some x /\ cell b r = Ret x.
Proof.
  intros (Hinv & Hlo & Hholds) Hlt.
  destruct (lookup_lt_is_Some_2 xs (Z.to_nat (r - lo))) as [x Hx].
  { unfold len in Hlt. lia. }
  exists x. split; [exact Hx|]. apply Hholds in Hx.
  replace (lo + Z.of_nat (Z.to_nat (r - lo))) with r in Hx by lia. exact Hx.
Qed.

Lemma Read_rep b lo r xs :
  rep b lo r xs -> r < lo + len xs ->
  exists x b',
    xs !! Z.to_nat (r - lo) = Some x /\ Read b = Ret ((x, true), b') /\
    rep b' lo (r + 1) xs /\ startRow b' = startRow b /\ rowSize b' = rowSize b.
Proof.
  intros Hrep Hlt. destruct (rep_lookup _ _ _ _ Hrep Hlt) as (x & Hx & Hcell).
  destruct Hrep as (Hinv & Hlo & Hholds).
  exists x, (set_read b (pos_of (rowSize b) (r + 1))).
  split; [exact Hx|]. split; [|split; [|split; reflexivity]].
  - rewrite (Read_inv _ _ _ Hinv), Hcell.
    destruct (Z.leb_spec (lo + len xs - r) 0); [lia|reflexivity].
  - split; [apply inv_read_step; assumption|]. split; [|exact Hholds].
    cbn [startRow rowSize set_read]. lia.
Qed.

Lemma Read_rep_end b lo xs :
  rep b lo (lo + len xs) xs -> Read b = Ret ((zero_value, false), b).
Proof.
  intros (Hinv & _). rewrite (Read_inv _ _ _ Hinv).
  destruct (Z.leb_spec (lo + len xs - (lo + len xs)) 0); [reflexivity|lia].
Qed.

Lemma len_cons (x : T) xs : len (x :: xs) = 1 + len xs.
Proof. unfold len. simpl. lia. Qed.

(** Reads that always find something unread answer with what was written,
    oldest first. *)
Lemma exec_fifo (ops : list (op T)) :
  forall b lo r xs (n m : nat),
    rep b lo r xs -> Z.of_nat n = lo + len xs - r ->
    unread_after n ops = Some m ->
    2 * (lo + len xs + len (written ops)) + 2 < GoInt.int_max ->
    exists b' (k : nat),
      exec ops b =
        Ret (map got (take k (drop (Z.to_nat (r - lo)) (xs ++ written ops))), b') /\
      rep b' lo (r + Z.of_nat k) (xs ++ written ops) /\
      Z.of_nat m = lo + len (xs ++ written ops) - (r + Z.of_nat k).
Proof.
  induction ops as [|[x|] ops IH]; intros b lo r xs n m Hrep Hn Hun Hbound;
    cbn [exec written unread_after] in *.
  - injection Hun as <-. exists b, 0%nat. rewrite app_nil_r, Z.add_0_r. auto.
  - rewrite len_cons in Hbound. pose proof (len_nonneg (written ops)).
    destruct (Write_rep _ _ _ _ x Hrep ltac:(lia)) as (b1 & -> & Hrep1 & _).
    rewrite bind_Ret.
    destruct (IH b1 lo r (xs ++ [x]) (S n) m Hrep1) as (b' & k & He & Hrep' & Hm);
      [rewrite len_app, len_cons; change (len []) with 0; lia|exact Hun| |].
    { rewrite len_app, len_cons. change (len []) with 0. lia. }
    rewrite <- app_assoc in He, Hrep', Hm. eauto.
  - destruct n as [|n]; [discriminate|].
    destruct (Read_rep _ _ _ _ Hrep ltac:(lia)) as (x & b1 & Hx & -> & Hrep1 & _).
    rewrite bind_Ret.
    destruct (IH b1 lo (r + 1) xs n m Hrep1 ltac:(lia) Hun Hbound)
      as (b' & k & -> & Hrep' & Hm).
    rewrite bind_Ret. exists b', (S k).
    destruct Hrep as (_ & Hlo & _).
    replace (Z.to_nat (r + 1 - lo)) with (S (Z.to_nat (r - lo))) by lia.
    rewrite (drop_S _ x (Z.to_nat (r - lo))) by (apply lookup_app_l_Some, Hx).
    replace (r + Z.of_nat (S k)) with (r + 1 + Z.of_nat k) by lia. auto.
Qed.

(** Reads and writes in any order go through and store what they write. *)
Lemma exec_total (ops : list (op T)) :
  forall b lo r xs,
    rep b lo r xs ->
    2 * (lo + len xs + len (written ops)) + 2 < GoInt.int_max ->
    exists answers b' r',
      exec ops b = Ret (answers, b') /\ rep b' lo r' (xs ++ written ops) /\
      startRow b' = startRow b /\ rowSize b' = rowSize b.
Proof.
  induction ops as [|[x|] ops IH]; intros b lo r xs Hrep Hbound;
    cbn [exec written] in *.
  - exists [], b, r. rewrite app_nil_r. auto.
  - rewrite len_cons in Hbound. pose proof (len_nonneg (written ops)).
    destruct (Write_rep _ _ _ _ x Hrep ltac:(lia)) as (b1 & -> & Hrep1 & Hs1 & Hrs1).
    rewrite bind_Ret.
    destruct (IH b1 lo r (xs ++ [x]) Hrep1)
      as (answers & b' & r' & He & Hrep' & Hs' & Hrs').
    { rewrite len_app, len_cons. change (len []) with 0. lia. }
    rewrite <- app_assoc in Hrep'. rewrite Hs1 in Hs'. rewrite Hrs1 in Hrs'.
    exists answers, b', r'. auto.
  - destruct (Z.lt_ge_cases r (lo + len xs)) as [Hlt|Hge].
    + destruct (Read_rep _ _ _ _ Hrep Hlt) as (x & b1 & _ & -> & Hrep1 & Hs1 & Hrs1).
      rewrite bind_Ret.
      destruct (IH b1 lo (r + 1) xs Hrep1 Hbound)
        as (answers & b' & r' & -> & Hrep' & Hs' & Hrs').
      rewrite bind_Ret. rewrite Hs1 in Hs'. rewrite Hrs1 in Hrs'. eauto 10.
    + assert (r = lo + len xs) as ->.
      { destruct Hrep as ((_ & _ & _ & Hrw & _) & _). lia. }
      rewrite (Read_rep_end _ _ _ Hrep), bind_Ret.
      destruct (IH b lo (lo + len xs) xs Hrep Hbound)
        as (answers & b' & r' & -> & Hrep' & Hs' & Hrs').
      rewrite bind_Ret. eauto 10.
Qed.

Lemma read_n_rep (n : nat) :
  forall b lo r xs,
    rep b lo r xs -> Z.of_nat n = lo + len xs - r ->
    exists b',
      read_n n b = Ret (map got (drop (Z.to_nat (r - lo)) xs), b') /\
      rep b' lo (lo + len xs) xs.
Proof.
  induction n as [|n IH]; intros b lo r xs Hrep Hn; cbn [read_n].
  - assert (r = lo + len xs) as -> by lia. exists b.
    rewrite drop_ge by (unfold len; lia). auto.
  - destruct (Read_rep _ _ _ _ Hrep ltac:(lia)) as (x & b1 & Hx & -> & Hrep1 & _).
    rewrite bind_Ret.
    destruct (IH b1 lo (r + 1) xs Hrep1 ltac:(lia)) as (b' & -> & Hrep').
    rewrite bind_Ret. exists b'. destruct Hrep as (_ & Hlo & _).
    replace (Z.to_nat (r + 1 - lo)) with (S (Z.to_nat (r - lo))) by lia.
    rewrite (drop_S _ x (Z.to_nat (r - lo))) by exact Hx. auto.
Qed.

Lemma drain_rep b lo r xs :
  rep b lo r xs ->
  exists b',
    drain b = Ret (map got (drop (Z.to_nat (r - lo)) xs), b') /\
    rep b' lo (lo + len xs) xs.
Proof.
  intros Hrep. unfold drain. destruct Hrep as (Hinv & Hlo & Hholds).
  rewrite (buffered_inv _ _ _ Hinv).
  apply read_n_rep; [split; auto|].
  destruct Hinv as (_ & _ & _ & Hrw & _). lia.
Qed.

(** What is stored from the read position on, when that position is not
    before the first row kept. *)
Lemma inv_rep r w b :
  inv r w b -> startRow b * rowSize b <= r ->
  exists xs, len xs = w - r /\ rep b r r xs.
Proof.
  intros Hinv Hlo.
  assert (Hn : forall n : nat, r + Z.of_nat n <= w ->
             exists xs, length xs = n /\ holds b r xs).
  { induction n as [|n IH]; intros Hle.
    - exists []. split; [reflexivity|]. intros i y Hi. discriminate.
    - destruct IH as (xs & Hlen & Hholds); [lia|].
      destruct (cell_in_range _ _ _ (r + Z.of_nat n) Hinv ltac:(lia)) as [y Hy].
      exists (xs ++ [y]). split; [rewrite length_app; simpl; lia|].
      intros i z Hi. apply lookup_app_Some in Hi as [Hi|[Hge Hi]].
      + apply Hholds, Hi.
      + assert (i = n) as ->.
        { apply lookup_lt_Some in Hi. simpl in Hi. lia. }
        rewrite Hlen, Nat.sub_diag in Hi. injection Hi as <-. exact Hy. }
  destruct Hinv as (Hrs & Hread & Hwrite & Hrw & Hrest).
  destruct (Hn (Z.to_nat (w - r)) ltac:(lia)) as (xs & Hlen & Hholds).
  exists xs. assert (Hl : len xs = w - r) by (unfold len; lia).
  split; [exact Hl|]. split; [|split; [lia|exact Hholds]].
  replace (r + len xs) with w by lia. repeat split; tauto || lia.
Qed.

End RepFacts.

(** * Properties of the package *)

(** C7. [Move] clamps at the origin.  For every position [p] with a positive
    row size and every [s], [p.Move(s)] does not panic, and the absolute
    position of the result is [max(0, p.AbsolutePos() + s)], the sum being
    the [int] sum of the program; the row and the column of the result are
    the quotient and the remainder of that absolute position by the row
    size, so neither is negative and the column is below the row size.
    Where the sum does not leave [int], it is the sum of the integers. *)
Theorem Move_clamps_at_origin (p : position.t) (s : Z) :
  0 < position.rowSize p ->
  exists q : position.t,
    position.Move p s = Ret q /\
    position.AbsolutePos q = Z.max 0 (GoInt.add (position.AbsolutePos p) s) /\
    q = pos_of (position.rowSize p) (position.AbsolutePos q) /\
    0 <= position.Row q /\
    0 <= position.Col q < position.rowSize q /\
    (GoInt.in_range (position.AbsolutePos p + s) ->
     position.AbsolutePos q = Z.max 0 (position.AbsolutePos p + s)).
Proof.
  intros Hrs. eexists. split; [apply Move_pos_of; exact Hrs|].
  set (a := GoInt.add (position.AbsolutePos p) s).
  pose proof (wrap_in_range (position.AbsolutePos p + s)) as Hw.
  fold (GoInt.add (position.AbsolutePos p) s) in Hw. fold a in Hw.
  assert (Ha : 0 <= Z.max 0 a <= GoInt.int_max) by int_lia.
  rewrite (AbsolutePos_pos_of _ _ Hrs Ha).
  destruct (quot_bounds (Z.max 0 a) (position.rowSize p)) as (Hq & Hr & _); [lia..|].
  repeat split; simpl; try lia.
  intros Hin. unfold a, GoInt.add. rewrite wrap_id; [reflexivity|exact Hin].
Qed.

Section Claims.
Context {T : Type} `{ZeroValue T}.
Import Buffer ReadUnread.
Implicit Types (b : t T) (lo r w : Z) (xs : list T).

(** C1. Reads observe writes in FIFO order.  Let [b] come from
    [NewWithSize], with whatever row size and row count it accepts, and let
    [ops] be writes and consuming reads in any order such that every read
    comes while something is unread and, in the end, as many elements are
    read as are written.  Then no call panics, the reads answer exactly the
    written elements in the order of the writes, each with [ok = true], and
    one more [Read] answers [ok = false].  The bound asks for fewer than
    2^62 writes, so that no position leaves [int]. *)
Theorem reads_follow_writes (rowSize rows : Z) b (ops : list (op T)) :
  NewWithSize rowSize rows = Ret (Some b, None) ->
  unread_after 0 ops = Some 0%nat ->
  2 * len (written ops) + 2 < GoInt.int_max ->
  exists b',
    exec ops b = Ret (map (fun x => (x, true)) (written ops), b') /\
    Read b' = Ret ((zero_value, false), b').
Proof.
  intros Hnew Hun Hbound.
  apply NewWithSize_inv in Hnew as (Hinv & Hs & _).
  assert (Hrep : rep b 0 0 []).
  { split; [exact Hinv|]. split; [lia|]. intros i x Hi. discriminate. }
  destruct (exec_fifo ops b 0 0 [] 0%nat 0%nat Hrep eq_refl Hun Hbound)
    as (b' & k & He & Hrep' & Hk).
  cbn [app] in *. rewrite Z.sub_diag, Z2Nat.inj_0, drop_0 in He.
  assert (Ek : Z.of_nat k = len (written ops)) by lia.
  rewrite take_ge in He by (unfold len in Ek; lia).
  exists b'. split; [exact He|].
  rewrite Z.add_0_l, Ek in Hrep'.
  exact (Read_rep_end b' 0 (written ops) Hrep').
Qed.

(** C2, amended.  Let [b] be any buffer a client has reached by calls of
    [buffer.go] (writes, reads, unreads, checkpoints, rollbacks, commits,
    grows) and let its read position be in a row that is still kept:
    [startRow <= read.Row].  Take the checkpoint [State b], then let writes
    and reads [ops] follow in any order, without a commit.  Then no call
    panics, [Rollback] with the checkpoint answers [nil], and it puts the
    read position back where it was at the checkpoint and changes nothing
    else; the element a [Read] found at the checkpoint is the one a [Read]
    finds after the rollback; and reading on after the rollback gives what
    was unread at the checkpoint followed by everything [ops] wrote, in the
    order of the writes.  The bound asks for fewer than 2^62 writes in all. *)
Theorem rollback_restores_read_position
    (cs : list (call T)) b (ops : list (op T)) :
  reached_by cs b ->
  startRow b <= position.Row (read b) ->
  2 * (writes_in cs + len (written ops)) + 2 < GoInt.int_max ->
  exists answers b1 b2,
    exec ops b = Ret (answers, b1) /\
    Rollback (State b) b1 = (None, b2) /\
    read b2 = read b /\ write b2 = write b1 /\ buffers b2 = buffers b1 /\
    (forall x b', Read b = Ret ((x, true), b') ->
                  exists b'', Read b2 = Ret ((x, true), b'')) /\
    exists xs b3 b4,
      drain b = Ret (map (fun x => (x, true)) xs, b3) /\
      drain b2 = Ret (map (fun x => (x, true)) (xs ++ written ops), b4).
Proof.
  intros Hreach Hrow Hbound.
  pose proof (len_nonneg (written ops)) as Hws.
  destruct (reached_inv cs b Hreach ltac:(lia)) as (r & Hinv).
  set (w := writes_in cs) in *.
  assert (Hlo : startRow b * Buffer.rowSize b <= r).
  { destruct Hinv as (Hrs & Hread & _ & Hrw & _).
    rewrite Hread in Hrow. cbn [position.Row pos_of] in Hrow.
    apply quot_le_iff; lia. }
  destruct (inv_rep r w b Hinv Hlo) as (xs & Hlen & Hrep).
  assert (Hb : 2 * (r + len xs + len (written ops)) + 2 < GoInt.int_max) by lia.
  destruct (exec_total ops b r r xs Hrep Hb)
    as (answers & b1 & r1 & He & Hrep1 & Hs1 & Hrs1).
  exists answers, b1, (set_read b1 (read b)).
  split; [exact He|].
  assert (Hrep2 : rep (set_read b1 (read b)) r r (xs ++ written ops)).
  { destruct Hrep1 as (Hinv1 & Hlo1 & Hholds1). split; [|split].
    - destruct Hinv1 as (Hrs & Hread1 & Hwrite1 & Hrw1 & Hrest).
      destruct Hinv as (_ & Hread & _ & Hrw & _).
      pose proof (len_nonneg (xs ++ written ops)).
      unfold inv. cbn [Buffer.rowSize read write startRow buffers set_read].
      rewrite Hrs1 in *. repeat split; tauto || lia.
    - cbn [Buffer.rowSize startRow set_read]. lia.
    - exact Hholds1. }
  split.
  { unfold Rollback, State, State.newState, State.zero.
    cbn [State.init State.read negb]. rewrite Hs1.
    destruct (Z.ltb_spec (position.Row (read b)) (startRow b)); [lia|reflexivity]. }
  split; [reflexivity|]. split; [reflexivity|]. split; [reflexivity|].
  split.
  - intros x b' Hread.
    rewrite (Read_inv _ _ _ Hinv) in Hread.
    destruct (Z.leb_spec (w - r) 0) as [|Hlt]; [discriminate|].
    destruct (rep_lookup _ _ _ _ Hrep ltac:(lia)) as (x0 & Hx0 & Hcell).
    rewrite Hcell, bind_Ret in Hread. injection Hread as <- _.
    destruct (Read_rep _ _ _ _ Hrep2) as (y & b'' & Hy & Hread2 & _).
    { rewrite len_app. lia. }
    rewrite (lookup_app_l_Some _ _ _ _ Hx0) in Hy. injection Hy as <-. eauto.
  - destruct (drain_rep _ _ _ _ Hrep) as (b3 & Hd & _).
    destruct (drain_rep _ _ _ _ Hrep2) as (b4 & Hd2 & _).
    rewrite Z.sub_diag, Z2Nat.inj_0, drop_0 in Hd, Hd2. eauto.
Qed.

(** C6. The three outcomes of [Rollback], for every buffer and every
    checkpoint value.  It answers [ZeroStateError] exactly when the
    checkpoint is not initialised, as [State{}] is and no result of [State]
    is; it answers [IllegalStateError] exactly when the checkpoint is
    initialised and the row of its read position is before [startRow]; it
    answers [nil] in the remaining case, and then the read position is the
    checkpoint's.  With either error the buffer is left as it was. *)
Theorem Rollback_outcomes (st : State.t) b :
  (fst (Rollback st b) = Some ZeroStateError <-> State.init st = false) /\
  (fst (Rollback st b) = Some IllegalStateError <->
     State.init st = true /\ position.Row (State.read st) < startRow b) /\
  (fst (Rollback st b) = None <->
     State.init st = true /\ startRow b <= position.Row (State.read st)) /\
  (fst (Rollback st b) <> None -> snd (Rollback st b) = b) /\
  (fst (Rollback st b) = None ->
     snd (Rollback st b) = set_read b (State.read st)) /\
  State.init State.empty = false /\
  (forall b' : t T, State.init (State b') = true).
Proof.
  unfold Rollback, State.zero.
  destruct (State.init st);
    destruct (Z.ltb_spec (position.Row (State.read st)) (startRow b));
    cbn [negb fst snd]; repeat split; try congruence; try lia;
    intros [? ?]; congruence || lia.
Qed.

(** C8. The two read surfaces agree, in every buffer state.  [Read] does
    what the specification's layering does: it answers what [Next] answers
    and, when an element is there, leaves the buffer as [Consume] leaves it
    after that [Next]; a panic of one is a panic of the other.  [Next]
    leaves the buffer as it found it, so asking again gives the same answer;
    and a [Read] that answers [ok = false] leaves the buffer as it found
    it. *)
Theorem Read_is_Next_then_Consume b :
  Read b = Read_from_Next b /\
  (forall answer b1, NextConsume.Next b = Ret (answer, b1) ->
                     b1 = b /\ NextConsume.Next b1 = Ret (answer, b1)) /\
  (forall e b1, Read b = Ret ((e, false), b1) -> b1 = b).
Proof.
  assert (Hpeek : forall answer b1,
             NextConsume.Next b = Ret (answer, b1) -> b1 = b).
  { unfold NextConsume.Next. intros answer b1. destruct (_ <=? 0).
    - intros [= _ <-]. reflexivity.
    - destruct (bufferPos b (read b)) as [row col].
      destruct (index (buffers b) row) as [chunk|]; [|discriminate].
      rewrite bind_Ret.
      destruct (index chunk col) as [element|]; [|discriminate].
      intros [= _ <-]. reflexivity. }
  split; [|split].
  - unfold Read_from_Next, Read, NextConsume.Next, NextConsume.Consume,
      NextConsume.Buffered, buffered.
    destruct (_ <=? 0); [reflexivity|].
    destruct (bufferPos b (read b)) as [row col].
    destruct (index (buffers b) row) as [chunk|]; [|reflexivity].
    rewrite !bind_Ret.
    destruct (index chunk col) as [element|]; [|reflexivity].
    rewrite !bind_Ret. destruct (position.Move (read b) 1); reflexivity.
  - intros answer b1 Hnext. pose proof (Hpeek _ _ Hnext) as ->.
    split; [reflexivity|exact Hnext].
  - unfold Read. intros e b1. destruct (_ <=? 0).
    + intros [= _ <-]. reflexivity.
    + destruct (bufferPos b (read b)) as [row col].
      destruct (index (buffers b) row) as [chunk|]; [|discriminate].
      rewrite bind_Ret.
      destruct (index chunk col) as [element|]; [|discriminate].
      rewrite bind_Ret.
      destruct (position.Move (read b) 1); discriminate.
Qed.

(** C9. An answer with [ok = false] carries the zero value of the element
    type.  In every buffer state with nothing unread, [Read] and [Next]
    answer the zero value and [false]; and whenever either answers [false],
    in any state, the element beside it is the zero value. *)
Theorem no_element_comes_with_zero_value b :
  (buffered b <= 0 ->
     Read b = Ret ((zero_value, false), b) /\
     NextConsume.Next b = Ret ((zero_value, false), b)) /\
  (forall e b', Read b = Ret ((e, false), b') -> e = zero_value) /\
  (forall e b', NextConsume.Next b = Ret ((e, false), b') -> e = zero_value).
Proof.
  unfold Read, NextConsume.Next, NextConsume.Buffered, buffered.
  destruct (Z.leb_spec (GoInt.sub (position.AbsolutePos (write b))
                          (position.AbsolutePos (read b))) 0) as [Hle|Hgt].
  - split; [intros _; split; reflexivity|].
    split; intros e b' [= <- <-]; reflexivity.
  - split; [lia|].
    destruct (bufferPos b (read b)) as [row col].
    destruct (index (buffers b) row) as [chunk|];
      [|split; intros ? ?; discriminate].
    rewrite !bind_Ret.
    destruct (index chunk col) as [element|];
      [|split; intros ? ?; discriminate].
    rewrite !bind_Ret. split; intros e b'; [|discriminate].
    destruct (position.Move (read b) 1); discriminate.
Qed.

(** C10. The constructor that reports errors takes a row count of zero.
    For every positive row size, [NewWithSize(rowSize, 0)] answers a buffer
    and a [nil] error; the buffer has exactly one row, of [rowSize] zero
    values, and its read and write positions are at absolute position 0. *)
Theorem NewWithSize_without_rows (rowSize : Z) :
  0 < rowSize ->
  exists b : t T,
    NewWithSize rowSize 0 = Ret (Some b, None) /\
    buffers b = [replicate (Z.to_nat rowSize) zero_value] /\
    len (buffers b) = 1 /\
    position.AbsolutePos (read b) = 0 /\
    position.AbsolutePos (write b) = 0.
Proof.
  intros Hrs. unfold NewWithSize.
  destruct (Z.leb_spec rowSize 0); [lia|].
  change (make_cap 0) with (Ret ([] : list (list T))). rewrite bind_Ret.
  change (GoInt.mul 0 rowSize) with 0.
  pose proof int_bounds as [Hmin Hmax].
  rewrite Grow_Ret; cbn [Buffer.rowSize fresh buffers];
    [|lia|unfold GoInt.in_range; lia|rewrite Z.quot_0_l by lia; lia].
  rewrite bind_Ret. eexists. split; [reflexivity|].
  cbn [buffers set_buffers read write fresh].
  rewrite Z.quot_0_l by lia.
  change (Z.to_nat (0 - len [] + 1)) with 1%nat.
  repeat split.
Qed.

(** X1. [Grow] is idempotent: after [Grow(n)] has come back, [Grow(m)] with
    [m <= n] allocates nothing and leaves the buffer as it is. *)
Theorem Grow_twice (n m : Z) (b b1 : t T) :
  0 < Buffer.rowSize b -> GoInt.in_range n -> GoInt.in_range m -> m <= n ->
  Grow n b = Ret b1 -> Grow m b1 = Ret b1.
Proof.
  intros Hrs Hn Hm Hmn Hgrow.
  assert (Hlen : Z.quot n (Buffer.rowSize b) < len (buffers b1) /\
                 Buffer.rowSize b1 = Buffer.rowSize b).
  { revert Hgrow. unfold Grow, GoInt.quot.
    destruct (Z.eqb_spec (Buffer.rowSize b) 0); [lia|]. simpl.
    rewrite (wrap_id (Z.quot _ _)) by (apply quot_in_range; assumption).
    destruct (grow_loop _ _ _ _ _) as [bufs|] eqn:Hloop; [|discriminate].
    simpl. intros [= <-]. simpl. split; [|reflexivity].
    eapply grow_loop_exit; [exact Hloop| |reflexivity].
    pose proof (quot_in_range n (Buffer.rowSize b) Hn Hrs) as Hq.
    unfold GoInt.in_range in Hq. lia. }
  destruct Hlen as [Hlen Hrs1].
  unfold Grow, GoInt.quot. rewrite Hrs1.
  destruct (Z.eqb_spec (Buffer.rowSize b) 0); [lia|]. simpl.
  rewrite (wrap_id (Z.quot _ _)) by (apply quot_in_range; assumption).
  pose proof (quot_mono m n (Buffer.rowSize b) Hrs Hmn).
  replace (Z.to_nat _) with 0%nat by lia. simpl.
  destruct (Z.leb_spec (len (buffers b1)) (Z.quot m (Buffer.rowSize b))); [lia|].
  simpl. destruct b1; reflexivity.
Qed.

(** X2. What a second [Commit] does.  In every buffer a client has reached, when
    a [Commit] has come back, the next [Commit] panics on its slice
    expression if the read position is past the first row, and changes
    nothing if the read position is in row 0. *)
Theorem Commit_again (cs : list (call T)) b b1 :
  reached_by cs b ->
  2 * writes_in cs + 2 < GoInt.int_max ->
  Commit b = Ret b1 ->
  (0 < position.Row (read b) -> Commit b1 = Abort SliceOutOfRange) /\
  (position.Row (read b) = 0 -> Commit b1 = Ret b1).
Proof.
  intros Hreach Hbound Hcommit.
  destruct (reached_inv cs b Hreach Hbound) as (r & Hinv).
  destruct (Commit_inv _ _ _ _ Hinv Hcommit) as (Hinv1 & Hs1 & Hrs1).
  destruct Hinv as (Hrs & Hread & _ & Hrw & Hb & _).
  destruct Hinv1 as (_ & Hread1 & _).
  rewrite Hrs1 in Hread1. rewrite Hread. cbn [position.Row pos_of].
  destruct (quot_bounds r (Buffer.rowSize b)) as (Hq & _); [lia..|].
  pose proof int_bounds as [Hmin Hmax].
  unfold Commit, bufferPos. rewrite Hread1, Hs1. cbn [position.Row pos_of].
  unfold GoInt.sub. rewrite Z.sub_diag. change (GoInt.wrap 0) with 0.
  rewrite wrap_id by lia. unfold slice_from. split; intros HR.
  - destruct (Z.leb_spec 0 (0 - Z.quot r (Buffer.rowSize b))); [lia|reflexivity].
  - rewrite HR. pose proof (len_nonneg (buffers b1)).
    destruct (Z.leb_spec 0 (0 - 0)); [|lia].
    destruct (Z.leb_spec (0 - 0) (len (buffers b1))); [|lia].
    cbn [andb]. rewrite bind_Ret. change (Z.to_nat (0 - 0)) with 0%nat.
    rewrite drop_0. unfold GoInt.add. cbn [startRow set_buffers].
    rewrite Hs1, HR. change (GoInt.wrap (0 + 0)) with 0.
    assert (Hs0 : startRow b1 = 0) by lia.
    clear - Hs0. destruct b1. cbn in *. subst. reflexivity.
Qed.

(** X3. With consuming reads and [Unread], the read position never passes the
    write position.  In every buffer a client has reached by calls of
    [buffer.go], the write position counts the writes, the read position is
    between 0 and the write position, and [buffered] is their difference. *)
Theorem buffered_counts_unread (cs : list (call T)) b :
  reached_by cs b ->
  2 * writes_in cs + 2 < GoInt.int_max ->
  position.AbsolutePos (write b) = writes_in cs /\
  0 <= position.AbsolutePos (read b) <= position.AbsolutePos (write b) /\
  buffered b = position.AbsolutePos (write b) - position.AbsolutePos (read b).
Proof.
  intros Hreach Hbound.
  destruct (reached_inv cs b Hreach Hbound) as (r & Hinv).
  rewrite (buffered_inv _ _ _ Hinv).
  destruct (inv_AbsolutePos _ _ _ Hinv) as [-> ->].
  destruct Hinv as (_ & _ & _ & Hrw & _). auto.
Qed.

End Claims.

(** * The package's scenarios *)

Import Buffer ReadUnread.

(** C3. With [Next] and [Consume], [Buffered] goes below zero.  After one
    write, the element taken by [Next] and [Consume], [Buffered] is 0; one
    more [Consume], with nothing unread, leaves it at -1, where the test
    "multiple EOF at end" of the package expects 0 again. *)
Theorem Consume_at_end_makes_Buffered_negative : consume_at_end = Ret (0, -1).
Proof. vm_compute. reflexivity. Qed.

(** C4. [Commit] is not idempotent.  After twelve writes and seven reads in
    rows of five, a first [Commit] comes back with [startRow = 1]; a second
    one, with no call in between, panics on its slice expression, whose
    lower bound is -1. *)
Theorem second_Commit_panics :
  NewWithSize 5 1 = Ret (Some buffer_5_1, None) /\
  exists b1 : t ascii,
    run_calls commit_after_reads (buffer_5_1, []) = Ret (b1, []) /\
    startRow b1 = 1 /\
    Commit b1 = Abort SliceOutOfRange.
Proof.
  split; [reflexivity|]. eexists. split; [vm_compute; reflexivity|].
  split; reflexivity.
Qed.

(** C5. Not every sequence of calls goes through.  On a buffer of
    [NewWithSize(5, 1)], six writes, five reads and two commits end in a
    panic of the second [Commit]; and six writes, five reads, one commit,
    an [Unread] and a [Read] end in a panic of the [Read], which indexes
    the rows at -1. *)
Theorem calls_that_panic :
  run_calls (six_five_commit ++ [CallCommit]) (buffer_5_1, [])
    = Abort SliceOutOfRange /\
  run_calls (six_five_commit ++ [CallUnread; CallRead]) (buffer_5_1, [])
    = Abort IndexOutOfRange.
Proof. split; vm_compute; reflexivity. Qed.

(** C2 as stated fails: six writes, five reads, a commit and an [Unread]
    reach a buffer whose read position is in row 0 while [startRow] is 1;
    a checkpoint taken there is refused by [Rollback] at once. *)
Lemma Rollback_refused_right_after_State :
  exists b : t ascii,
    reached_by (six_five_commit ++ [CallUnread]) b /\
    Rollback (State b) b = (Some IllegalStateError, b).
Proof.
  eexists. split.
  - exists 5, 1, buffer_5_1, []. split; [reflexivity|]. vm_compute. reflexivity.
  - reflexivity.
Qed.

(** ** Instances *)

(** From column 3 of row 0, five steps back end at the origin. *)
Lemma Move_clamps_at_origin_witness :
  exists q : position.t,
    position.Move (position.mk 10 0 3) (-5) = Ret q /\
    position.AbsolutePos q = 0.
Proof.
  destruct (Move_clamps_at_origin (position.mk 10 0 3) (-5))
    as (q & Hq & Habs & _).
  - simpl. lia.
  - exists q. split; [exact Hq|]. rewrite Habs. reflexivity.
Defined.

Lemma reads_follow_writes_witness :
  exists b' : t ascii,
    exec [OpWrite "a"; OpWrite "b"; OpRead; OpWrite "c"; OpRead; OpRead]%char
         buffer_5_1
      = Ret ([("a", true); ("b", true); ("c", true)]%char, b') /\
    Read b' = Ret ((zero, false), b').
Proof.
  apply (reads_follow_writes 5 1 buffer_5_1
           [OpWrite "a"; OpWrite "b"; OpRead; OpWrite "c"; OpRead; OpRead]%char).
  - reflexivity.
  - reflexivity.
  - vm_compute. reflexivity.
Defined.

Lemma rollback_restores_read_position_witness :
  exists answers b1 b2,
    exec after_checkpoint at_checkpoint = Ret (answers, b1) /\
    Rollback (State at_checkpoint) b1 = (None, b2) /\
    read b2 = read at_checkpoint /\ write b2 = write b1 /\
    buffers b2 = buffers b1 /\
    (forall x b', Read at_checkpoint = Ret ((x, true), b') ->
                  exists b'', Read b2 = Ret ((x, true), b'')) /\
    exists xs b3 b4,
      drain at_checkpoint = Ret (map (fun x => (x, true)) xs, b3) /\
      drain b2 =
        Ret (map (fun x => (x, true)) (xs ++ written after_checkpoint), b4).
Proof.
  apply (rollback_restores_read_position before_checkpoint at_checkpoint
           after_checkpoint).
  - exists 5, 1, buffer_5_1, []. split; [reflexivity|]. vm_compute. reflexivity.
  - simpl. lia.
  - vm_compute. reflexivity.
Defined.

Lemma NewWithSize_without_rows_witness :
  exists b : t ascii,
    NewWithSize 5 0 = Ret (Some b, None) /\
    buffers b = [replicate 5 zero] /\
    len (buffers b) = 1 /\
    position.AbsolutePos (read b) = 0 /\
    position.AbsolutePos (write b) = 0.
Proof.
  apply (NewWithSize_without_rows (T:=ascii) 5). lia.
Defined.

Lemma Grow_twice_witness :
  exists b1 : t ascii, Grow 12 buffer_5_1 = Ret b1 /\ Grow 7 b1 = Ret b1.
Proof.
  eexists. split; [vm_compute; reflexivity|].
  apply (Grow_twice 12 7 buffer_5_1).
  - simpl. lia.
  - vm_compute. split; discriminate.
  - vm_compute. split; discriminate.
  - lia.
  - vm_compute. reflexivity.
Defined.

Lemma Commit_again_witness :
  exists b b1 : t ascii,
    run_calls six_five_commit (buffer_5_1, []) = Ret (b1, []) /\
    Commit b = Ret b1 /\ Commit b1 = Abort SliceOutOfRange.
Proof.
  pose (b := Buffer.mk 5 0 [runes "abcde"; runes "f" ++ replicate 4 zero]
               (position.mk 5 1 0) (position.mk 5 1 1)).
  pose (b1 := Buffer.mk 5 1 [runes "f" ++ replicate 4 zero]
                (position.mk 5 1 0) (position.mk 5 1 1)).
  exists b, b1. split; [vm_compute; reflexivity|]. split; [reflexivity|].
  apply (Commit_again
           (map CallWrite (runes "abcdef") ++ replicate 5 CallRead) b b1).
  - exists 5, 1, buffer_5_1, []. split; [reflexivity|]. vm_compute. reflexivity.
  - vm_compute. reflexivity.
  - reflexivity.
  - simpl. lia.
Defined.

Lemma buffered_counts_unread_witness :
  position.AbsolutePos (write at_checkpoint) = 3 /\
  0 <= position.AbsolutePos (read at_checkpoint)
    <= position.AbsolutePos (write at_checkpoint) /\
  buffered at_checkpoint =
    position.AbsolutePos (write at_checkpoint)
    - position.AbsolutePos (read at_checkpoint).
Proof.
  apply (buffered_counts_unread before_checkpoint at_checkpoint).
  - exists 5, 1, buffer_5_1, []. split; [reflexivity|]. vm_compute. reflexivity.
  - vm_compute. reflexivity.
Defined.

(** ** The tests of the package, replayed *)

(** [TestBufferPos], "forward multiple wrap line" and "forward backward
    before start", in rows of ten. *)
Example TestBufferPos_forward_multiple_wrap_line :
  (p ← position.Move (position.origin 10) 5; p ← position.Move p 28;
   mret (position.Row p, position.Col p, position.AbsolutePos p))
  = Ret (3, 3, 33).
Proof. reflexivity. Qed.

Example TestBufferPos_forward_backward_before_start :
  (p ← position.Move (position.origin 10) 5; p ← position.Move p (-8);
   mret (position.Row p, position.Col p, position.AbsolutePos p))
  = Ret (0, 0, 0).
Proof. reflexivity. Qed.

(** [TestBuffer], "read after commit remove rows": after the commit the
    reads go on with 8, 9, 0, 1, 2 and the newly written a. *)
Example TestBuffer_read_after_commit_remove_rows :
  ('(b, _) ← run_calls commit_after_reads (buffer_5_1, []);
   '(answers, _) ← exec (OpRead :: OpWrite "a"%char :: replicate 6 OpRead) b;
   mret answers)
  = Ret (map (fun x => (x, true)) (runes "89012a") ++ [(zero, false)]).
Proof. vm_compute. reflexivity. Qed.

(** [New] asks for five rows of ten and gets six. *)
Example New_allocates_six_rows :
  (b ← New (T:=ascii); mret (option_map (fun b => len (buffers b)) b))
  = Ret (Some 6).
Proof. vm_compute. reflexivity. Qed.

(** * Further properties *)

Lemma wrap_add_wrap_r (a x : Z) : GoInt.wrap (a + GoInt.wrap x) = GoInt.wrap (a + x).
Proof.
  unfold GoInt.wrap. f_equal.
  replace (a + ((x + 2 ^ 63) mod 2 ^ 64 - 2 ^ 63) + 2 ^ 63)
    with (a + (x + 2 ^ 63) mod 2 ^ 64) by lia.
  rewrite Z.add_mod_idemp_r by lia. f_equal. lia.
Qed.

Lemma pos_of_AbsolutePos (p : position.t) :
  0 < position.rowSize p -> 0 <= position.Row p ->
  0 <= position.Col p < position.rowSize p ->
  position.Row p * position.rowSize p + position.Col p <= GoInt.int_max ->
  position.AbsolutePos p = position.Row p * position.rowSize p + position.Col p /\
  pos_of (position.rowSize p) (position.AbsolutePos p) = p.
Proof.
  intros Hrs Hrow Hcol Hmax. pose proof int_bounds as [Hmin Hmx].
  assert (Habs : position.AbsolutePos p =
                 position.Row p * position.rowSize p + position.Col p).
  { unfold position.AbsolutePos, GoInt.add, GoInt.mul.
    rewrite (wrap_id (_ * _)) by nia. apply wrap_id. nia. }
  split; [exact Habs|]. rewrite Habs. unfold pos_of.
  destruct p as [rs row col]. cbn [position.rowSize position.Row position.Col] in *.
  assert (0 <= row * rs + col) by nia.
  rewrite Z.quot_div_nonneg, Z.rem_mod_nonneg by lia.
  f_equal.
  - symmetry. apply (Z.div_unique_pos _ _ _ col); lia.
  - symmetry. apply (Z.mod_unique_pos _ _ row); lia.
Qed.

(** X4. Positions and absolute positions correspond one to one.  A position
    with a positive row size, a row that is not negative, a column inside
    the row and an absolute position inside [int] is left as it is by
    [Move(0)]; and two such positions of the same row size with the same
    [AbsolutePos] are the same position. *)
Theorem Move_zero_is_identity (p q : position.t) :
  0 < position.rowSize p -> 0 <= position.Row p ->
  0 <= position.Col p < position.rowSize p ->
  position.Row p * position.rowSize p + position.Col p <= GoInt.int_max ->
  position.Move p 0 = Ret p /\
  (position.rowSize q = position.rowSize p -> 0 <= position.Row q ->
   0 <= position.Col q < position.rowSize q ->
   position.Row q * position.rowSize q + position.Col q <= GoInt.int_max ->
   position.AbsolutePos q = position.AbsolutePos p -> q = p).
Proof.
  intros Hrs Hrow Hcol Hmax.
  destruct (pos_of_AbsolutePos p Hrs Hrow Hcol Hmax) as [Habs Hpos].
  pose proof int_bounds as [Hmin Hmx]. split.
  - rewrite Move_pos_of by exact Hrs. unfold GoInt.add.
    rewrite Z.add_0_r, wrap_id, Z.max_r by (rewrite Habs; nia).
    rewrite Hpos. reflexivity.
  - intros Hrsq Hrowq Hcolq Hmaxq Heq.
    destruct (pos_of_AbsolutePos q) as [_ Hposq]; try lia.
    rewrite <- Hpos, <- Hposq, Hrsq, Heq. reflexivity.
Qed.

(** X5. Moves add up.  When the first of two moves does not run into the
    clamp at the origin and no sum leaves [int], moving by [s1] and then by
    [s2] is moving by [s1 + s2]. *)
Theorem Move_composes (p : position.t) (s1 s2 : Z) :
  0 < position.rowSize p ->
  0 <= position.AbsolutePos p + s1 <= GoInt.int_max ->
  GoInt.in_range (position.AbsolutePos p + s1 + s2) ->
  (q ← position.Move p s1; position.Move q s2)
  = position.Move p (GoInt.add s1 s2).
Proof.
  intros Hrs H1 H2. pose proof int_bounds as [Hmin Hmx].
  unfold GoInt.in_range in H2.
  rewrite !Move_pos_of by exact Hrs. rewrite bind_Ret.
  rewrite Move_pos_of by exact Hrs. cbn [position.rowSize pos_of].
  assert (E1 : GoInt.add (position.AbsolutePos p) s1 = position.AbsolutePos p + s1)
    by (apply wrap_id; lia).
  rewrite E1, (Z.max_r 0 (_ + s1)) by lia.
  rewrite AbsolutePos_pos_of by lia.
  unfold GoInt.add. rewrite wrap_add_wrap_r, Z.add_assoc. reflexivity.
Qed.

Section Constructors.
Context {T : Type} `{ZeroValue T}.
Import Buffer.
Implicit Types (b : t T) (lo r w : Z) (xs : list T).

#[local] Abbreviation zero_row rs := (replicate (Z.to_nat rs) (zero_value : T)).

(** The common part of both constructors. *)
Lemma Grow_fresh (rowSize rows : Z) :
  0 < rowSize -> 0 <= rows -> rows * rowSize < GoInt.int_max ->
  Grow (GoInt.mul rows rowSize) (fresh rowSize ([] : list (list T)))
  = Ret (fresh rowSize (replicate (Z.to_nat (rows + 1)) (zero_row rowSize))).
Proof.
  intros Hrs Hrows Hmul. pose proof int_bounds as [Hmin Hmax].
  unfold GoInt.mul. rewrite wrap_id by nia.
  rewrite Grow_Ret; cbn [Buffer.rowSize fresh buffers];
    [|lia|unfold GoInt.in_range; nia|rewrite Z.quot_mul by lia; nia].
  rewrite Z.quot_mul by lia. change (len []) with 0. rewrite Z.sub_0_r.
  reflexivity.
Qed.

(** X6. The three outcomes of the constructor of [buffer.go].  A row size
    that is not positive gives no buffer and the error value, whatever the
    row count; a positive row size with a negative row count panics in
    [make]; a positive row size with a row count that is not negative
    gives, as long as [rows * rowSize] stays below [int_max], a buffer of
    [rows + 1] rows of zero values with [startRow = 0] and both positions
    at the origin, and a [nil] error. *)
Theorem NewWithSize_outcomes (rowSize rows : Z) :
  (rowSize <= 0 ->
   ReadUnread.NewWithSize (T:=T) rowSize rows
   = Ret (None, Some (IllegalRowSize rowSize))) /\
  (0 < rowSize -> rows < 0 ->
   ReadUnread.NewWithSize (T:=T) rowSize rows = Abort MakeOutOfRange) /\
  (0 < rowSize -> 0 <= rows -> rows * rowSize < GoInt.int_max ->
   ReadUnread.NewWithSize rowSize rows
   = Ret (Some (fresh rowSize
                  (replicate (Z.to_nat (rows + 1)) (zero_row rowSize))),
          None)).
Proof.
  unfold ReadUnread.NewWithSize, make_cap. repeat split.
  - intros Hrs. destruct (Z.leb_spec rowSize 0); [reflexivity|lia].
  - intros Hrs Hrows. destruct (Z.leb_spec rowSize 0); [lia|].
    destruct (Z.ltb_spec rows 0); [reflexivity|lia].
  - intros Hrs Hrows Hmul. destruct (Z.leb_spec rowSize 0); [lia|].
    destruct (Z.ltb_spec rows 0); [lia|]. rewrite bind_Ret.
    rewrite Grow_fresh by assumption. reflexivity.
Qed.

(** X7. The constructor of the sibling revision.  It panics when the row
    size or the row count is not positive; otherwise, as long as
    [rows * rowSize] stays below [int_max], it returns the buffer of
    [rows + 1] rows that the constructor of [buffer.go] returns for the
    same arguments.  [New] of either revision returns the buffer of six
    rows of ten. *)
Theorem NewWithSize_panics_or_allocates (rowSize rows : Z) :
  (rowSize <= 0 \/ rows <= 0 ->
   NextConsume.NewWithSize (T:=T) rowSize rows = Abort Raised) /\
  (0 < rowSize -> 0 < rows -> rows * rowSize < GoInt.int_max ->
   NextConsume.NewWithSize rowSize rows
   = Ret (fresh rowSize (replicate (Z.to_nat (rows + 1)) (zero_row rowSize))) /\
   ReadUnread.NewWithSize rowSize rows
   = (b ← NextConsume.NewWithSize rowSize rows; mret (Some b, None))) /\
  NextConsume.New = Ret (fresh 10 (replicate 6 (zero_row 10))) /\
  ReadUnread.New = Ret (Some (fresh 10 (replicate 6 (zero_row 10)))).
Proof.
  unfold NextConsume.New, ReadUnread.New.
  unfold NextConsume.NewWithSize, ReadUnread.NewWithSize, make_cap.
  split; [|split; [|split]].
  - intros [Hrs|Hrows].
    + destruct (Z.leb_spec rowSize 0); [reflexivity|lia].
    + destruct (Z.leb_spec rowSize 0); [reflexivity|].
      destruct (Z.leb_spec rows 0); [reflexivity|lia].
  - intros Hrs Hrows Hmul. destruct (Z.leb_spec rowSize 0); [lia|].
    destruct (Z.leb_spec rows 0); [lia|].
    destruct (Z.ltb_spec rows 0); [lia|]. rewrite !bind_Ret.
    rewrite Grow_fresh by (assumption || lia). split; reflexivity.
  - reflexivity.
  - reflexivity.
Qed.

(** X8. [Grow] makes room and only appends.  For a buffer of positive row
    size and a [size] whose quotient by the row size is below [int_max],
    [Grow(size)] returns; it appends fresh rows of zero values to the rows
    there are and changes nothing else; afterwards the rows count more than
    [size] slots; and when they already did, for a [size] that is not
    negative, nothing is appended. *)
Theorem Grow_makes_room (size : Z) b :
  0 < rowSize b -> GoInt.in_range size ->
  Z.quot size (rowSize b) < GoInt.int_max ->
  exists k : nat,
    Grow size b
    = Ret (set_buffers b (buffers b ++ replicate k (zero_row (rowSize b)))) /\
    size < (len (buffers b) + Z.of_nat k) * rowSize b /\
    (0 <= size -> size < len (buffers b) * rowSize b -> k = 0%nat).
Proof.
  intros Hrs Hsize Hq. rewrite Grow_Ret by assumption.
  eexists. split; [reflexivity|].
  pose proof (len_nonneg (buffers b)) as Hlen.
  set (q := Z.quot size (rowSize b)) in *.
  split.
  - destruct (Z.le_gt_cases 0 size) as [Hpos|Hneg]; [|nia].
    destruct (quot_bounds size (rowSize b)) as (Hb & Hr & Heq); [lia..|].
    fold q in Hb, Heq. nia.
  - intros Hpos Hroom.
    assert (q < len (buffers b)) by (apply quot_lt_iff; lia). lia.
Qed.

End Constructors.

Section Reached.
Context {T : Type} `{ZeroValue T}.
Import Buffer ReadUnread.
Implicit Types (b : t T) (lo r w : Z) (xs : list T).

Lemma set_read_read b p : read b = p -> set_read b p = b.
Proof. intros <-. destruct b. reflexivity. Qed.

(** [Commit], spelled out under the invariant. *)
Lemma Commit_eq r w b :
  inv r w b ->
  Commit b =
    if 0 <=? Z.quot r (rowSize b) - startRow b - startRow b
    then Ret (set_startRow
                (set_buffers b
                   (drop (Z.to_nat (Z.quot r (rowSize b) - startRow b - startRow b))
                      (buffers b)))
                (Z.quot r (rowSize b)))
    else Abort SliceOutOfRange.
Proof.
  intros (Hrs & Hread & Hwrite & Hrw & Hbound & Hs & Hcap & Hrows).
  pose proof int_bounds as [Hmin Hmax].
  destruct (quot_bounds r (rowSize b)) as (Hq & Hr & Er); [lia..|].
  destruct (quot_bounds w (rowSize b)) as (Hqw & Hrw' & Ew); [lia..|].
  pose proof (quot_mono r w (rowSize b) Hrs ltac:(lia)) as Hmono.
  assert (Hlen : Z.quot w (rowSize b) <= startRow b + len (buffers b)).
  { pose proof (len_nonneg (buffers b)).
    enough (Z.quot w (rowSize b) < startRow b + len (buffers b) + 1) by lia.
    apply quot_lt_iff; nia. }
  unfold Commit, bufferPos. rewrite Hread. cbn [position.Row pos_of].
  unfold GoInt.sub, GoInt.add. rewrite (wrap_id (_ - _)) by lia.
  rewrite (wrap_id (_ - _ - _)) by lia. unfold slice_from.
  destruct (Z.leb_spec 0 (Z.quot r (rowSize b) - startRow b - startRow b));
    [|reflexivity].
  destruct (Z.leb_spec (Z.quot r (rowSize b) - startRow b - startRow b)
              (len (buffers b))); [|lia].
  cbn [andb]. rewrite bind_Ret. cbn [startRow set_buffers].
  rewrite wrap_id by lia. do 2 f_equal. lia.
Qed.

Lemma index_drop {A : Type} (s : list A) (k j : Z) :
  0 <= k -> 0 <= j -> index (drop (Z.to_nat k) s) j = index s (k + j).
Proof.
  intros Hk Hj. unfold index.
  destruct (Z.ltb_spec j 0), (Z.ltb_spec (k + j) 0); try lia.
  rewrite lookup_drop. replace (Z.to_nat k + Z.to_nat j)%nat with (Z.to_nat (k + j)) by lia.
  reflexivity.
Qed.

(** After a [Commit], the slot of [a] is the one [a - startRow * rowSize]
    had. *)
Lemma Commit_cells r w b b1 a :
  inv r w b -> Commit b = Ret b1 ->
  Z.quot r (rowSize b) * rowSize b <= a ->
  cell b1 a = cell b (a - startRow b * rowSize b).
Proof.
  intros Hinv Hcommit Ha. rewrite (Commit_eq _ _ _ Hinv) in Hcommit.
  destruct Hinv as (Hrs & Hread & Hwrite & Hrw & Hbound & Hs & Hcap & Hrows).
  destruct (Z.leb_spec 0 (Z.quot r (rowSize b) - startRow b - startRow b))
    as [Hk|]; [|discriminate].
  injection Hcommit as <-.
  destruct (quot_bounds r (rowSize b)) as (Hq & Hr & Er); [lia..|].
  assert (Ha0 : 0 <= a - startRow b * rowSize b) by nia.
  assert (Eq : Z.quot (a - startRow b * rowSize b) (rowSize b)
               = Z.quot a (rowSize b) - startRow b).
  { rewrite !Z.quot_div_nonneg by nia.
    replace (a - startRow b * rowSize b) with (a + (- startRow b) * rowSize b) by lia.
    rewrite Z.div_add by lia. lia. }
  assert (Er' : Z.rem (a - startRow b * rowSize b) (rowSize b)
                = Z.rem a (rowSize b)).
  { rewrite !Z.rem_mod_nonneg by nia.
    replace (a - startRow b * rowSize b) with (a + (- startRow b) * rowSize b) by lia.
    apply Z.mod_add. lia. }
  unfold cell. cbn [rowSize startRow buffers set_startRow set_buffers].
  rewrite Eq, Er'.
  assert (Z.quot r (rowSize b) <= Z.quot a (rowSize b)) by (apply quot_le_iff; nia).
  rewrite index_drop by lia. do 2 f_equal. lia.
Qed.

(** X9. [Unread] undoes [Read].  In every buffer a client has reached by
    calls of [buffer.go], when a [Read] has answered an element, the
    [Unread] that follows gives back the buffer as it was before the
    [Read], so that the next [Read] answers the same element again. *)
Theorem Unread_undoes_Read (cs : list (call T)) b b1 (x : T) :
  reached_by cs b ->
  2 * writes_in cs + 2 < GoInt.int_max ->
  Read b = Ret ((x, true), b1) ->
  Unread b1 = Ret b.
Proof.
  intros Hreach Hbound Hread.
  destruct (reached_inv cs b Hreach Hbound) as (r & Hinv).
  rewrite (Read_inv _ _ _ Hinv) in Hread.
  destruct (Z.leb_spec (writes_in cs - r) 0) as [|Hlt]; [discriminate|].
  destruct (cell b r) as [y|]; [|discriminate]. rewrite bind_Ret in Hread.
  injection Hread as _ <-.
  destruct Hinv as (Hrs & Hrd & Hwrite & Hrw & Hb & _).
  pose proof int_bounds as [Hmin Hmax].
  unfold Unread. cbn [read set_read]. rewrite Move_pos_of by exact Hrs.
  cbn [position.rowSize pos_of]. rewrite AbsolutePos_pos_of by lia.
  unfold GoInt.add. rewrite wrap_id, Z.max_r by lia. rewrite bind_Ret.
  replace (r + 1 + -1) with r by lia.
  destruct b. cbn in *. subst. reflexivity.
Qed.

(** X10. [Unread] steps back by one and stops at the origin.  In every
    buffer a client has reached, [Unread] does not panic and changes the
    read position only; the read position goes from absolute [a] to
    [max(0, a - 1)]: at the origin nothing changes, elsewhere [buffered]
    grows by one. *)
Theorem Unread_steps_back (cs : list (call T)) b :
  reached_by cs b ->
  2 * writes_in cs + 2 < GoInt.int_max ->
  exists b',
    Unread b = Ret b' /\
    b' = set_read b (read b') /\
    position.AbsolutePos (read b')
    = Z.max 0 (position.AbsolutePos (read b) - 1) /\
    (position.AbsolutePos (read b) = 0 -> b' = b) /\
    (0 < position.AbsolutePos (read b) -> buffered b' = buffered b + 1).
Proof.
  intros Hreach Hbound.
  destruct (reached_inv cs b Hreach Hbound) as (r & Hinv).
  destruct (Unread_inv _ _ _ Hinv) as (b' & Hun & Hinv' & _).
  exists b'. split; [exact Hun|].
  rewrite (buffered_inv _ _ _ Hinv), (buffered_inv _ _ _ Hinv').
  destruct (inv_AbsolutePos _ _ _ Hinv) as [Hr _].
  destruct (inv_AbsolutePos _ _ _ Hinv') as [Hr' _].
  rewrite Hr, Hr'.
  assert (Hb' : b' = set_read b (read b')).
  { revert Hun. unfold Unread. destruct (position.Move (read b) (-1)); [|discriminate].
    rewrite bind_Ret. intros [= <-]. reflexivity. }
  split; [exact Hb'|]. split; [reflexivity|]. split; [|lia].
  intros ->. rewrite Hb'. apply set_read_read.
  destruct Hinv as (_ & -> & _). destruct Hinv' as (Hrs' & -> & _).
  rewrite Hb'. reflexivity.
Qed.

(** X11. What [Read] does, in every buffer a client has reached.  With
    nothing unread it answers the zero value and [false] and changes
    nothing; with something unread and the read position in a row that is
    kept, it answers an element and [true], moves the read position only,
    and [buffered] drops by one; with something unread and the read
    position in a row before [startRow] (after an [Unread] across a
    commit), it panics on its index expression. *)
Theorem Read_outcomes (cs : list (call T)) b :
  reached_by cs b ->
  2 * writes_in cs + 2 < GoInt.int_max ->
  (buffered b <= 0 -> Read b = Ret ((zero_value, false), b)) /\
  (0 < buffered b -> startRow b <= position.Row (read b) ->
   exists x b', Read b = Ret ((x, true), b') /\
                b' = set_read b (read b') /\
                buffered b' = buffered b - 1) /\
  (0 < buffered b -> position.Row (read b) < startRow b ->
   Read b = Abort IndexOutOfRange).
Proof.
  intros Hreach Hbound.
  destruct (reached_inv cs b Hreach Hbound) as (r & Hinv).
  rewrite (Read_inv _ _ _ Hinv), (buffered_inv _ _ _ Hinv).
  set (w := writes_in cs) in *.
  pose proof Hinv as (Hrs & Hread & Hwrite & Hrw & Hb & Hs & Hcap & Hrows).
  rewrite Hread. cbn [position.Row pos_of].
  destruct (Z.leb_spec (w - r) 0) as [Hle|Hlt].
  - split; [reflexivity|]. split; intros; lia.
  - split; [lia|]. split.
    + intros _ Hrow.
      destruct (cell_in_range r w b r Hinv) as [x Hx].
      { split; [apply quot_le_iff; lia|lia]. }
      rewrite Hx, bind_Ret. eexists _, _. split; [reflexivity|].
      split; [reflexivity|].
      rewrite (buffered_inv (r + 1) w); [lia|].
      apply inv_read_step; [exact Hinv|lia].
    + intros _ Hrow. unfold cell.
      assert (Hidx : index (buffers b) (Z.quot r (rowSize b) - startRow b)
                     = Abort IndexOutOfRange).
      { unfold index.
        destruct (Z.ltb_spec (Z.quot r (rowSize b) - startRow b) 0);
          [reflexivity|lia]. }
      rewrite Hidx. reflexivity.
Qed.

(** X12. What [Commit] does, in every buffer a client has reached.  It
    panics on its slice expression when the row of the read position is
    below twice [startRow]; otherwise it drops the first
    [read.Row - 2 * startRow] rows, sets [startRow] to [read.Row], and
    changes nothing else. *)
Theorem Commit_outcomes (cs : list (call T)) b :
  reached_by cs b ->
  2 * writes_in cs + 2 < GoInt.int_max ->
  (position.Row (read b) < 2 * startRow b -> Commit b = Abort SliceOutOfRange) /\
  (2 * startRow b <= position.Row (read b) ->
   Commit b
   = Ret (set_startRow
            (set_buffers b
               (drop (Z.to_nat (position.Row (read b) - 2 * startRow b))
                  (buffers b)))
            (position.Row (read b)))).
Proof.
  intros Hreach Hbound.
  destruct (reached_inv cs b Hreach Hbound) as (r & Hinv).
  rewrite (Commit_eq _ _ _ Hinv).
  destruct Hinv as (_ & -> & _). cbn [position.Row pos_of].
  destruct (Z.leb_spec 0 (Z.quot r (rowSize b) - startRow b - startRow b)).
  - split; [lia|]. intros _. do 4 f_equal. lia.
  - split; [reflexivity|lia].
Qed.

End Reached.

Section Contents.
Context {T : Type} `{ZeroValue T}.
Import Buffer ReadUnread.
Implicit Types (b : t T) (lo r w : Z) (xs : list T).

(** Any stretch of slots between the first row kept and the write position
    holds something. *)
Lemma holds_exists r w b lo (n : nat) :
  inv r w b -> startRow b * rowSize b <= lo -> lo + Z.of_nat n <= w ->
  exists xs, length xs = n /\ holds b lo xs.
Proof.
  intros Hinv Hlo. induction n as [|n IH]; intros Hle.
  - exists []. split; [reflexivity|]. intros i y Hi. discriminate.
  - destruct IH as (xs & Hlen & Hholds); [lia|].
    destruct (cell_in_range _ _ _ (lo + Z.of_nat n) Hinv ltac:(lia)) as [y Hy].
    exists (xs ++ [y]). split; [rewrite length_app; simpl; lia|].
    intros i z Hi. apply lookup_app_Some in Hi as [Hi|[Hge Hi]].
    + apply Hholds, Hi.
    + assert (i = n) as ->.
      { apply lookup_lt_Some in Hi. simpl in Hi. lia. }
      rewrite Hlen, Nat.sub_diag in Hi. injection Hi as <-. exact Hy.
Qed.

Lemma Commit_rep r w b b1 :
  inv r w b -> Commit b = Ret b1 ->
  exists xs,
    len xs = w - r /\
    holds b (r - startRow b * rowSize b) xs /\
    rep b1 r r xs.
Proof.
  intros Hinv Hcommit.
  destruct (Commit_inv _ _ _ _ Hinv Hcommit) as (Hinv1 & Hs1 & Hrs1).
  pose proof Hcommit as Hk. rewrite (Commit_eq _ _ _ Hinv) in Hk.
  destruct (Z.leb_spec 0 (Z.quot r (rowSize b) - startRow b - startRow b))
    as [Hk0|]; [clear Hk|discriminate].
  pose proof Hinv as (Hrs & Hread & Hwrite & Hrw & Hbound & Hs & Hcap & Hrows).
  destruct (quot_bounds r (rowSize b)) as (Hq & Hr & Er); [lia..|].
  destruct (holds_exists r w b (r - startRow b * rowSize b) (Z.to_nat (w - r)) Hinv)
    as (xs & Hlen & Hholds); [nia|lia|].
  assert (Hl : len xs = w - r) by (unfold len; lia).
  exists xs. split; [exact Hl|]. split; [exact Hholds|].
  split; [|split].
  - replace (r + len xs) with w by lia. exact Hinv1.
  - rewrite Hs1, Hrs1. nia.
  - intros i x Hi. rewrite (Commit_cells _ _ _ _ _ Hinv Hcommit) by nia.
    replace (r + Z.of_nat i - startRow b * rowSize b)
      with (r - startRow b * rowSize b + Z.of_nat i) by lia.
    apply Hholds, Hi.
Qed.


(** X14. A first [Commit] keeps what is unread.  In every buffer a client
    has reached with [startRow = 0], [Commit] does not panic, drops exactly
    the rows before the row of the read position, sets [startRow] to that
    row, leaves both positions alone, and reading on answers the same
    elements as it would have before. *)
Theorem first_Commit_keeps_what_is_unread (cs : list (call T)) b :
  reached_by cs b ->
  2 * writes_in cs + 2 < GoInt.int_max ->
  startRow b = 0 ->
  exists b1 xs b2 b3,
    Commit b = Ret b1 /\
    startRow b1 = position.Row (read b) /\
    buffers b1 = drop (Z.to_nat (position.Row (read b))) (buffers b) /\
    read b1 = read b /\ write b1 = write b /\
    drain b = Ret (map (fun x => (x, true)) xs, b2) /\
    drain b1 = Ret (map (fun x => (x, true)) xs, b3).
Proof.
  intros Hreach Hbound Hs0.
  destruct (reached_inv cs b Hreach Hbound) as (r & Hinv).
  pose proof Hinv as (Hrs & Hread & Hwrite & Hrw & Hb & Hs & Hcap & Hrows).
  destruct (quot_bounds r (rowSize b)) as (Hq & Hr & Er); [lia..|].
  assert (Hcommit : Commit b
            = Ret (set_startRow
                     (set_buffers b (drop (Z.to_nat (Z.quot r (rowSize b))) (buffers b)))
                     (Z.quot r (rowSize b)))).
  { rewrite (Commit_eq _ _ _ Hinv), Hs0, !Z.sub_0_r.
    destruct (Z.leb_spec 0 (Z.quot r (rowSize b))); [reflexivity|lia]. }
  destruct (Commit_rep _ _ _ _ Hinv Hcommit) as (xs & Hlen & Hholds & Hrep1).
  rewrite Hs0, Z.mul_0_l, Z.sub_0_r in Hholds.
  assert (Hrep : rep b r r xs).
  { split; [|split; [rewrite Hs0; lia|exact Hholds]].
    replace (r + len xs) with (writes_in cs) by lia. exact Hinv. }
  destruct (drain_rep _ _ _ _ Hrep) as (b2 & Hd & _).
  destruct (drain_rep _ _ _ _ Hrep1) as (b3 & Hd1 & _).
  rewrite Z.sub_diag, Z2Nat.inj_0, drop_0 in Hd, Hd1.
  eexists _, xs, b2, b3. split; [exact Hcommit|].
  rewrite Hread. cbn [position.Row pos_of startRow buffers read write
                      set_startRow set_buffers].
  rewrite <- Hread. auto 10.
Qed.

(** X15. [Write] appends.  In every buffer a client has reached by calls
    of [buffer.go], [Write] does not panic, leaves the read position alone,
    and [buffered] grows by one; when the read position is in a row that is
    kept, reading on answers what it would have before, followed by the
    element written. *)
Theorem Write_appends (cs : list (call T)) b (x : T) :
  reached_by cs b ->
  2 * (writes_in cs + 1) + 2 < GoInt.int_max ->
  exists b',
    Write x b = Ret b' /\
    read b' = read b /\ startRow b' = startRow b /\ rowSize b' = rowSize b /\
    buffered b' = buffered b + 1 /\
    (startRow b <= position.Row (read b) ->
     exists xs b2 b3,
       drain b = Ret (map (fun x => (x, true)) xs, b2) /\
       drain b' = Ret (map (fun x => (x, true)) (xs ++ [x]), b3)).
Proof.
  intros Hreach Hbound.
  destruct (reached_inv cs b Hreach ltac:(lia)) as (r & Hinv).
  set (w := writes_in cs) in *.
  destruct (Write_inv r w b x Hinv ltac:(lia))
    as (b' & Hw & Hinv' & Hs' & Hrs' & Hrd' & _).
  exists b'. split; [exact Hw|]. split; [exact Hrd'|]. split; [exact Hs'|].
  split; [exact Hrs'|].
  rewrite (buffered_inv _ _ _ Hinv), (buffered_inv _ _ _ Hinv').
  split; [lia|]. intros Hrow.
  assert (Hlo : startRow b * rowSize b <= r).
  { destruct Hinv as (Hrs & Hread & _ & Hrw & _).
    rewrite Hread in Hrow. cbn [position.Row pos_of] in Hrow.
    apply quot_le_iff; lia. }
  destruct (inv_rep r w b Hinv Hlo) as (xs & Hlen & Hrep).
  destruct (Write_rep b r r xs x Hrep ltac:(lia)) as (b'' & Hw' & Hrep' & _).
  rewrite Hw in Hw'. injection Hw' as <-.
  destruct (drain_rep _ _ _ _ Hrep) as (b2 & Hd & _).
  destruct (drain_rep _ _ _ _ Hrep') as (b3 & Hd' & _).
  rewrite Z.sub_diag, Z2Nat.inj_0, drop_0 in Hd, Hd'. eauto.
Qed.

End Contents.

Section PeekFacts.
Context {T : Type} `{ZeroValue T}.
Import Buffer.
Implicit Types (b : t T) (lo r w : Z) (xs : list T).

#[local] Abbreviation zero_row rs := (replicate (Z.to_nat rs) (zero_value : T)).

(** The layering of the consuming read on [Next] and [Consume] is [Read]. *)
Lemma Read_from_Next_Read b : Read_from_Next b = ReadUnread.Read b.
Proof.
  unfold Read_from_Next, ReadUnread.Read, NextConsume.Next, NextConsume.Consume,
    NextConsume.Buffered, ReadUnread.buffered.
  destruct (_ <=? 0); [reflexivity|].
  destruct (bufferPos b (read b)) as [row col].
  destruct (index (buffers b) row) as [chunk|]; [|reflexivity].
  rewrite !bind_Ret.
  destruct (index chunk col) as [element|]; [|reflexivity].
  rewrite !bind_Ret. destruct (position.Move (read b) 1); reflexivity.
Qed.

Lemma exec_peek_exec (ops : list (op T)) b : exec_peek ops b = exec ops b.
Proof.
  revert b. induction ops as [|[x|] ops IH]; intros b; cbn [exec_peek exec].
  - reflexivity.
  - destruct (Write x b) as [b1|]; [|reflexivity]. rewrite !bind_Ret. apply IH.
  - rewrite Read_from_Next_Read.
    destruct (ReadUnread.Read b) as [[a b1]|]; [|reflexivity].
    rewrite !bind_Ret, IH. reflexivity.
Qed.

(** Where this revision's constructor returns, the other returns the same
    buffer. *)
Lemma NewWithSize_same (rowSize rows : Z) b :
  NextConsume.NewWithSize rowSize rows = Ret b ->
  ReadUnread.NewWithSize rowSize rows = Ret (Some b, None).
Proof.
  unfold NextConsume.NewWithSize, ReadUnread.NewWithSize, make_cap.
  destruct (rowSize <=? 0); [discriminate|].
  destruct (Z.leb_spec rows 0); [discriminate|].
  destruct (Z.ltb_spec rows 0); [lia|]. rewrite !bind_Ret.
  intros ->. reflexivity.
Qed.

(** X16. FIFO through [Next] and [Consume].  On a buffer from the
    sibling revision's [NewWithSize], let elements be written and taken in
    any order, an element being taken by [Next] and, when [Next] has found
    one, [Consume]; if every taking finds an element and in the end all
    are taken, the answers are the written elements in the order of the
    writes, each with [ok = true], and a further [Next] answers
    [ok = false]. *)
Theorem Next_and_Consume_follow_writes (rowSize rows : Z) b (ops : list (op T)) :
  NextConsume.NewWithSize rowSize rows = Ret b ->
  unread_after 0 ops = Some 0%nat ->
  2 * len (written ops) + 2 < GoInt.int_max ->
  exists b',
    exec_peek ops b = Ret (map (fun x => (x, true)) (written ops), b') /\
    NextConsume.Next b' = Ret ((zero_value, false), b').
Proof.
  intros Hnew Hun Hbound. rewrite exec_peek_exec.
  apply NewWithSize_same, NewWithSize_inv in Hnew as (Hinv & Hs & _).
  assert (Hrep : rep b 0 0 []).
  { split; [exact Hinv|]. split; [lia|]. intros i x Hi. discriminate. }
  destruct (exec_fifo ops b 0 0 [] 0%nat 0%nat Hrep eq_refl Hun Hbound)
    as (b' & k & He & Hrep' & Hk).
  cbn [app] in *. rewrite Z.sub_diag, Z2Nat.inj_0, drop_0 in He.
  assert (Ek : Z.of_nat k = len (written ops)) by lia.
  rewrite take_ge in He by (unfold len in Ek; lia).
  exists b'. split; [exact He|].
  rewrite Z.add_0_l, Ek in Hrep'. destruct Hrep' as (Hinv' & _).
  unfold NextConsume.Next, NextConsume.Buffered.
  fold (ReadUnread.buffered b'). rewrite (buffered_inv _ _ _ Hinv').
  rewrite Z.add_0_l, Z.sub_diag. reflexivity.
Qed.

(** ** The sibling revision's invariant *)

Lemma peek_inv_AbsolutePos r w b :
  peek_inv r w b -> r <= GoInt.int_max -> w <= GoInt.int_max ->
  position.AbsolutePos (read b) = r /\ position.AbsolutePos (write b) = w.
Proof.
  intros (Hrs & -> & -> & Hr & Hw & _) Hrm Hwm.
  split; apply AbsolutePos_pos_of; lia.
Qed.

Lemma set_read_inv r w b :
  peek_inv r w b -> startRow b <= Z.quot w (rowSize b) ->
  2 * w < GoInt.int_max ->
  inv w w (set_read b (write b)).
Proof.
  intros (Hrs & Hread & Hwrite & Hr & Hw & Hs & Hcap & Hrows) Hsw Hb.
  unfold inv. cbn [rowSize read write startRow buffers set_read].
  repeat split; try assumption; lia.
Qed.

(** [Write] never looks at the read position. *)
Lemma Write_set_read (x : T) b p :
  Write x (set_read b p) = (b' ← Write x b; mret (set_read b' p)).
Proof.
  unfold Write, Grow. cbn [rowSize buffers write set_read].
  destruct (GoInt.quot _ _) as [rows|]; [|reflexivity]. rewrite !bind_Ret.
  destruct (grow_loop _ _ _ _ _) as [bufs|]; [|reflexivity]. rewrite !bind_Ret.
  cbn [bufferPos rowSize buffers write startRow set_read set_buffers].
  destruct (index bufs _) as [chunk|]; [|reflexivity]. rewrite !bind_Ret.
  destruct (store chunk _ x) as [chunk'|]; [|reflexivity]. rewrite !bind_Ret.
  destruct (position.Move _ 1) as [q|]; reflexivity.
Qed.

Lemma Write_frame (x : T) b b' :
  Write x b = Ret b' ->
  read b' = read b /\ startRow b' = startRow b /\ rowSize b' = rowSize b.
Proof.
  unfold Write, Grow.
  destruct (GoInt.quot _ _) as [rows|]; [|discriminate]. rewrite !bind_Ret.
  destruct (grow_loop _ _ _ _ _) as [bufs|]; [|discriminate]. rewrite !bind_Ret.
  cbn [bufferPos rowSize buffers write startRow set_buffers].
  destruct (index bufs _) as [chunk|]; [|discriminate]. rewrite !bind_Ret.
  destruct (store chunk _ x) as [chunk'|]; [|discriminate]. rewrite !bind_Ret.
  destruct (position.Move _ 1) as [q|]; [|discriminate].
  intros [= <-]. auto.
Qed.

Lemma Write_peek_inv r w b (x : T) :
  peek_inv r w b -> 2 * r < GoInt.int_max -> 2 * (w + 1) < GoInt.int_max ->
  (Z.quot w (rowSize b) < startRow b -> Write x b = Abort IndexOutOfRange) /\
  (startRow b <= Z.quot w (rowSize b) ->
   exists b', Write x b = Ret b' /\ peek_inv r (w + 1) b').
Proof.
  intros Hinv Hbr Hb. pose proof int_bounds as [Hmin Hmax].
  pose proof Hinv as (Hrs & Hread & Hwrite & Hr & Hw & Hs & Hcap & Hrows).
  destruct (quot_bounds r (rowSize b)) as (Hqr & _); [lia..|].
  destruct (quot_bounds w (rowSize b)) as (Hq & _); [lia..|].
  destruct (quot_bounds (w + 1) (rowSize b)) as (Hq1 & _); [lia..|].
  split.
  - intros Hlt. unfold Write. rewrite Hwrite.
    rewrite (AbsolutePos_pos_of _ _ Hrs) by lia.
    unfold GoInt.add at 1. rewrite wrap_id by lia.
    rewrite Grow_Ret by (unfold GoInt.in_range; lia). rewrite bind_Ret.
    cbn [bufferPos write set_buffers startRow buffers]. rewrite Hwrite.
    cbn [position.Row position.Col pos_of].
    unfold GoInt.sub. rewrite wrap_id by lia. unfold index at 1.
    destruct (Z.ltb_spec (Z.quot w (rowSize b) - startRow b) 0); [reflexivity|lia].
  - intros Hle.
    pose proof (set_read_inv r w b Hinv Hle ltac:(lia)) as Hinvw.
    destruct (Write_inv w w _ x Hinvw Hb) as (b1 & Hw1 & Hinv1 & Hs1 & Hrs1 & _).
    rewrite Write_set_read in Hw1.
    destruct (Write x b) as [b'|] eqn:Hwb; [|discriminate].
    rewrite bind_Ret in Hw1. injection Hw1 as <-.
    destruct (Write_frame _ _ _ Hwb) as (Hrd & Hsb & Hrsb).
    exists b'. split; [reflexivity|].
    destruct Hinv1 as (Hrs' & Hread' & Hwrite' & Hrw' & Hb' & Hs' & Hcap' & Hrows').
    cbn [rowSize read write startRow buffers set_read] in *.
    unfold peek_inv. rewrite Hrd, Hsb, Hrsb in *.
    repeat split; try assumption; lia.
Qed.

Lemma Next_peek_inv r w b :
  peek_inv r w b -> 2 * r < GoInt.int_max -> 2 * w < GoInt.int_max ->
  exists a, NextConsume.Next b = Ret (a, b).
Proof.
  intros Hinv Hbr Hbw. pose proof int_bounds as [Hmin Hmax].
  destruct (peek_inv_AbsolutePos _ _ _ Hinv) as [Har Haw]; [lia..|].
  destruct Hinv as (Hrs & Hread & Hwrite & Hr & Hw & Hs & Hcap & Hrows).
  unfold NextConsume.Next, NextConsume.Buffered, GoInt.sub.
  rewrite Har, Haw, wrap_id by lia.
  destruct (Z.leb_spec (w - r) 0) as [|Hlt]; [eauto|].
  destruct (quot_bounds r (rowSize b)) as (Hq & Hrr & Er); [lia..|].
  unfold bufferPos. rewrite Hread. cbn [position.Row position.Col pos_of].
  unfold GoInt.sub. rewrite wrap_id by lia.
  destruct (index_in_range (buffers b) (Z.quot r (rowSize b) - startRow b))
    as [row Hrow].
  { split; [lia|].
    enough (Z.quot r (rowSize b) < startRow b + len (buffers b)) by lia.
    apply quot_lt_iff; lia. }
  assert (Hlen : len row = rowSize b).
  { apply index_Ret in Hrow as [_ Hrow].
    exact (proj1 (Forall_lookup _ _) Hrows _ _ Hrow). }
  destruct (index_in_range row (Z.rem r (rowSize b))) as [y Hy]; [lia|].
  rewrite Hrow, bind_Ret, Hy, bind_Ret. eauto.
Qed.

Lemma Next_unchanged b b' a : NextConsume.Next b = Ret (a, b') -> b' = b.
Proof.
  unfold NextConsume.Next. destruct (_ <=? 0).
  - intros [= _ <-]. reflexivity.
  - destruct (bufferPos b (read b)) as [row col].
    destruct (index (buffers b) row) as [chunk|]; [|discriminate].
    rewrite bind_Ret.
    destruct (index chunk col) as [element|]; [|discriminate].
    intros [= _ <-]. reflexivity.
Qed.

Lemma Consume_peek_inv r w b :
  peek_inv r w b -> 2 * (r + 1) < GoInt.int_max ->
  exists b', NextConsume.Consume b = Ret b' /\ peek_inv (r + 1) w b' /\
             rowSize b' = rowSize b.
Proof.
  intros (Hrs & Hread & Hwrite & Hr & Hw & Hs & Hcap & Hrows) Hb.
  pose proof int_bounds as [Hmin Hmax].
  assert (Har : position.AbsolutePos (read b) = r)
    by (rewrite Hread; apply AbsolutePos_pos_of; lia).
  unfold NextConsume.Consume.
  rewrite Move_pos_of, Har by (rewrite Hread; exact Hrs).
  unfold GoInt.add. rewrite wrap_id, Z.max_r by lia. rewrite bind_Ret.
  eexists. split; [reflexivity|]. split; [|reflexivity].
  pose proof (quot_mono r (r + 1) (rowSize b) Hrs ltac:(lia)).
  unfold peek_inv. cbn [rowSize read write startRow buffers set_read].
  rewrite Hread at 1. cbn [position.rowSize pos_of].
  repeat split; try assumption; lia.
Qed.

Lemma Commit_peek_inv r w b b' :
  peek_inv r w b -> 2 * r < GoInt.int_max -> Commit b = Ret b' ->
  peek_inv r w b' /\ rowSize b' = rowSize b.
Proof.
  intros (Hrs & Hread & Hwrite & Hr & Hw & Hs & Hcap & Hrows) Hb.
  pose proof int_bounds as [Hmin Hmax].
  destruct (quot_bounds r (rowSize b)) as (Hq & Hrr & Er); [lia..|].
  unfold Commit, bufferPos. rewrite Hread. cbn [position.Row pos_of].
  unfold GoInt.sub, GoInt.add. rewrite (wrap_id (_ - _)) by lia.
  rewrite (wrap_id (_ - _ - _)) by lia.
  destruct (slice_from _ _) as [bufs|] eqn:Hslice; [|discriminate].
  apply slice_from_Ret in Hslice as [Hk ->]. rewrite bind_Ret.
  cbn [startRow set_buffers]. rewrite wrap_id by lia. intros [= <-].
  split; [|reflexivity].
  unfold peek_inv. cbn [rowSize read write startRow buffers set_startRow set_buffers].
  rewrite len_drop by exact Hk.
  repeat split; try assumption; try lia; try nia.
  apply Forall_drop. exact Hrows.
Qed.

Lemma Grow_peek_inv r w b b' (size : Z) :
  peek_inv r w b -> Grow size b = Ret b' ->
  peek_inv r w b' /\ rowSize b' = rowSize b.
Proof.
  intros (Hrs & Hread & Hwrite & Hr & Hw & Hs & Hcap & Hrows) Hgrow.
  apply Grow_appends in Hgrow as [k ->]. split; [|reflexivity].
  unfold peek_inv. cbn [rowSize read write startRow buffers set_buffers].
  rewrite len_app, len_replicate.
  repeat split; try assumption; try lia; try nia.
  apply Forall_app. split; [exact Hrows|]. apply Forall_replicate.
  rewrite len_replicate. lia.
Qed.

Lemma Rollback_peek_inv r w n b (st : State.t) :
  peek_inv r w b -> r <= n -> checkpoint_ok (rowSize b) n st ->
  exists r', r' <= n /\ peek_inv r' w (snd (Rollback st b)) /\
             rowSize (snd (Rollback st b)) = rowSize b.
Proof.
  intros Hinv Hn (Hinit & r0 & Hr0 & Hst). unfold Rollback, State.zero.
  rewrite Hinit. cbn [negb].
  destruct (Z.ltb_spec (position.Row (State.read st)) (startRow b));
    [exists r; auto|].
  exists r0. cbn [snd]. split; [lia|]. split; [|reflexivity].
  destruct Hinv as (Hrs & Hread & Hwrite & Hr & Hw & Hs & Hcap & Hrows).
  rewrite Hst in *. cbn [position.Row pos_of] in *.
  unfold peek_inv. cbn [rowSize read write startRow buffers set_read].
  repeat split; try assumption; lia.
Qed.

Lemma NewWithSize_peek_inv (rs rows : Z) b :
  NextConsume.NewWithSize rs rows = Ret b -> peek_inv 0 0 b.
Proof.
  intros Hnew. apply NewWithSize_same, NewWithSize_inv in Hnew as (Hinv & _).
  destruct Hinv as (Hrs & Hread & Hwrite & Hrw & Hb & Hs & Hcap & Hrows).
  unfold peek_inv. repeat split; try assumption; lia.
Qed.

End PeekFacts.

Section PeekSessions.
Context {T : Type} `{ZeroValue T}.
Import Buffer.
Implicit Types (b : t T) (lo r w n : Z) (xs : list T).

Lemma peek_step_inv (c : peek_call T) r w n b b' (saved saved' : list State.t) :
  peek_inv r w b -> r <= n -> w <= n ->
  Forall (checkpoint_ok (rowSize b) n) saved ->
  2 * (n + 1) + 2 < GoInt.int_max ->
  peek_step c (b, saved) = Ret (b', saved') ->
  exists r' w',
    peek_inv r' w' b' /\ r' <= n + 1 /\ w' <= n + 1 /\
    Forall (checkpoint_ok (rowSize b') (n + 1)) saved' /\
    rowSize b' = rowSize b.
Proof.
  intros Hinv Hr Hw Hsaved Hbound.
  assert (Hsaved1 : Forall (checkpoint_ok (rowSize b) (n + 1)) saved).
  { eapply Forall_impl; [exact Hsaved|]. intros st. apply checkpoint_ok_mono. lia. }
  destruct c as [x| | | |k| |size]; cbn [peek_step].
  - destruct (Write x b) as [b1|] eqn:Hwrite; [|discriminate].
    rewrite bind_Ret. intros [= <- <-].
    destruct (Write_frame _ _ _ Hwrite) as (_ & _ & Hrs1).
    destruct (Write_peek_inv r w b x Hinv ltac:(lia) ltac:(lia)) as [Hpanic Hok].
    destruct (Z.lt_ge_cases (Z.quot w (rowSize b)) (startRow b)) as [Hlt|Hge].
    + rewrite (Hpanic Hlt) in Hwrite. discriminate.
    + destruct (Hok ltac:(lia)) as (b2 & Hw2 & Hinv2).
      rewrite Hwrite in Hw2. injection Hw2 as <-.
      exists r, (w + 1). rewrite Hrs1.
      split; [exact Hinv2|]. split; [lia|]. split; [lia|]. auto.
  - destruct (NextConsume.Next b) as [[a b1]|] eqn:Hnext; [|discriminate].
    rewrite bind_Ret. intros [= <- <-].
    apply Next_unchanged in Hnext as ->.
    exists r, w. split; [exact Hinv|]. split; [lia|]. split; [lia|]. auto.
  - destruct (Consume_peek_inv r w b Hinv ltac:(lia)) as (b1 & -> & Hinv1 & Hrs1).
    rewrite bind_Ret. intros [= <- <-].
    exists (r + 1), w. rewrite Hrs1.
    split; [exact Hinv1|]. split; [lia|]. split; [lia|]. auto.
  - intros [= <- <-]. exists r, w.
    split; [exact Hinv|]. split; [lia|]. split; [lia|]. split; [|reflexivity].
    constructor; [|exact Hsaved1].
    destruct Hinv as (_ & Hread & _ & Hr0 & _).
    split; [reflexivity|]. exists r. split; [lia|exact Hread].
  - intros [= <- <-].
    destruct (nth_in_or_default k saved State.empty) as [Hin | ->].
    + apply list_elem_of_In in Hin.
      pose proof (proj1 (Forall_forall _ _) Hsaved _ Hin) as Hok.
      destruct (Rollback_peek_inv r w n b _ Hinv Hr Hok) as (r' & Hr' & Hinv' & Hrs').
      exists r', w. rewrite Hrs'.
      split; [exact Hinv'|]. split; [lia|]. split; [lia|]. auto.
    + rewrite Rollback_empty. exists r, w.
      split; [exact Hinv|]. split; [lia|]. split; [lia|]. auto.
  - destruct (Commit b) as [b1|] eqn:Hcommit; [|discriminate].
    rewrite bind_Ret. intros [= <- <-].
    destruct (Commit_peek_inv r w b b1 Hinv ltac:(lia) Hcommit) as (Hinv1 & Hrs1).
    exists r, w. rewrite Hrs1.
    split; [exact Hinv1|]. split; [lia|]. split; [lia|]. auto.
  - destruct (Grow size b) as [b1|] eqn:Hgrow; [|discriminate].
    rewrite bind_Ret. intros [= <- <-].
    destruct (Grow_peek_inv r w b b1 size Hinv Hgrow) as (Hinv1 & Hrs1).
    exists r, w. rewrite Hrs1.
    split; [exact Hinv1|]. split; [lia|]. split; [lia|]. auto.
Qed.

Lemma run_peek_calls_inv (cs : list (peek_call T)) :
  forall r w n b b' (saved saved' : list State.t),
    peek_inv r w b -> r <= n -> w <= n ->
    Forall (checkpoint_ok (rowSize b) n) saved ->
    2 * (n + len cs) + 2 < GoInt.int_max ->
    run_peek_calls cs (b, saved) = Ret (b', saved') ->
    exists r' w',
      peek_inv r' w' b' /\ r' <= n + len cs /\ w' <= n + len cs.
Proof.
  induction cs as [|c cs IH]; intros r w n b b' saved saved' Hinv Hr Hw Hsaved.
  - change (len []) with 0. rewrite Z.add_0_r. intros _ [= <- <-]. eauto.
  - rewrite len_cons. pose proof (len_nonneg cs). intros Hbound.
    cbn [run_peek_calls].
    destruct (peek_step c (b, saved)) as [[b1 saved1]|] eqn:Hstep; [|discriminate].
    rewrite bind_Ret. intros Hrun.
    destruct (peek_step_inv c r w n b b1 saved saved1 Hinv Hr Hw Hsaved
                ltac:(lia) Hstep) as (r1 & w1 & Hinv1 & Hr1 & Hw1 & Hsaved1 & _).
    destruct (IH r1 w1 (n + 1) b1 b' saved1 saved' Hinv1 Hr1 Hw1 Hsaved1
                ltac:(lia) Hrun) as (r2 & w2 & Hinv2 & Hr2 & Hw2).
    exists r2, w2. split; [exact Hinv2|]. lia.
Qed.

Lemma peek_reached_inv (cs : list (peek_call T)) b :
  peek_reached_by cs b -> 2 * len cs + 2 < GoInt.int_max ->
  exists r w, peek_inv r w b /\ r <= len cs /\ w <= len cs.
Proof.
  intros (rs & rows & b0 & saved & Hnew & Hrun) Hbound.
  apply NewWithSize_peek_inv in Hnew.
  pose proof (len_nonneg cs).
  assert (Hb0 : 2 * (0 + len cs) + 2 < GoInt.int_max) by lia.
  destruct (run_peek_calls_inv cs 0 0 0 b0 b [] saved Hnew ltac:(lia) ltac:(lia)
              (Forall_nil_2 _) Hb0 Hrun) as (r & w & Hinv & Hr & Hw).
  exists r, w. split; [exact Hinv|]. lia.
Qed.

(** X17. The sibling revision keeps its read position in kept rows.  In
    every buffer a client of the [Next]/[Consume] revision has reached
    (fewer than 2^62 calls), the row of the read position is not before
    [startRow]; [Next] does not panic and leaves the buffer as it is;
    [Consume] does not panic; and a checkpoint taken there is accepted by
    [Rollback] at once, which changes nothing. *)
Theorem peek_surface_stays_in_kept_rows (cs : list (peek_call T)) b :
  peek_reached_by cs b ->
  2 * len cs + 2 < GoInt.int_max ->
  startRow b <= position.Row (read b) /\
  (exists a, NextConsume.Next b = Ret (a, b)) /\
  (exists b', NextConsume.Consume b = Ret b') /\
  Rollback (State b) b = (None, b).
Proof.
  intros Hreach Hbound.
  destruct (peek_reached_inv cs b Hreach Hbound) as (r & w & Hinv & Hr & Hw).
  pose proof Hinv as (Hrs & Hread & Hwrite & Hr0 & Hw0 & Hs & Hcap & Hrows).
  assert (Hrow : startRow b <= position.Row (read b)).
  { rewrite Hread. cbn [position.Row pos_of]. lia. }
  split; [exact Hrow|]. split; [apply (Next_peek_inv r w); auto; lia|].
  split.
  - destruct (Consume_peek_inv r w b Hinv ltac:(lia)) as (b' & Hc & _). eauto.
  - unfold Rollback, State, State.newState, State.zero.
    cbn [State.init State.read negb].
    destruct (Z.ltb_spec (position.Row (read b)) (startRow b)); [lia|].
    rewrite set_read_read by reflexivity. reflexivity.
Qed.

(** X18. In the sibling revision [Write] can panic.  In every buffer a
    client of the [Next]/[Consume] revision has reached, [Write] panics on
    its index expression when the row of the write position is before
    [startRow] (as after [Consume] calls past the last element and a
    [Commit]), and returns otherwise. *)
Theorem Write_panics_behind_startRow (cs : list (peek_call T)) b (x : T) :
  peek_reached_by cs b ->
  2 * (len cs + 1) + 2 < GoInt.int_max ->
  (position.Row (write b) < startRow b -> Write x b = Abort IndexOutOfRange) /\
  (startRow b <= position.Row (write b) -> exists b', Write x b = Ret b').
Proof.
  intros Hreach Hbound.
  destruct (peek_reached_inv cs b Hreach ltac:(lia)) as (r & w & Hinv & Hr & Hw).
  destruct (Write_peek_inv r w b x Hinv ltac:(lia) ltac:(lia)) as [Hpanic Hok].
  destruct Hinv as (_ & _ & -> & _). cbn [position.Row pos_of].
  split; [exact Hpanic|]. intros Hle. destruct (Hok Hle) as (b' & Hw' & _). eauto.
Qed.

End PeekSessions.

(** ** Instances of the further properties *)

Import Buffer ReadUnread.

Lemma reached_read_up_to_row_1 :
  reached_by (map CallWrite (runes "abcdef") ++ replicate 5 CallRead)
    read_up_to_row_1.
Proof.
  exists 5, 1, buffer_5_1, []. split; [reflexivity|]. vm_compute. reflexivity.
Qed.

Lemma reached_at_checkpoint : reached_by before_checkpoint at_checkpoint.
Proof.
  exists 5, 1, buffer_5_1, []. split; [reflexivity|]. vm_compute. reflexivity.
Qed.

Lemma reached_committed_in_row_1 : reached_by six_five_commit committed_in_row_1.
Proof.
  exists 5, 1, buffer_5_1, []. split; [reflexivity|]. vm_compute. reflexivity.
Qed.

Lemma reached_overrun_committed :
  peek_reached_by overrun_then_commit overrun_committed.
Proof.
  exists 5, 1, buffer_5_1, []. split; [reflexivity|]. vm_compute. reflexivity.
Qed.

Lemma Move_zero_is_identity_witness :
  position.Move (position.mk 10 2 8) 0 = Ret (position.mk 10 2 8).
Proof.
  refine (proj1 (Move_zero_is_identity (position.mk 10 2 8)
                   (position.mk 10 2 8) _ _ _ _)).
  - simpl. lia.
  - simpl. lia.
  - simpl. lia.
  - vm_compute. discriminate.
Defined.

Lemma Move_composes_witness :
  (q ← position.Move (position.origin 10) 12; position.Move q (-3))
  = position.Move (position.origin 10) (GoInt.add 12 (-3)).
Proof.
  apply (Move_composes (position.origin 10) 12 (-3)).
  - simpl. lia.
  - vm_compute. split; discriminate.
  - vm_compute. split; discriminate.
Defined.

Lemma Grow_makes_room_witness :
  exists k : nat,
    Grow 12 buffer_5_1
    = Ret (set_buffers buffer_5_1
             (buffers buffer_5_1 ++ replicate k (replicate (Z.to_nat 5) zero))) /\
    12 < (len (buffers buffer_5_1) + Z.of_nat k) * 5 /\
    (0 <= 12 -> 12 < len (buffers buffer_5_1) * 5 -> k = 0%nat).
Proof.
  apply (Grow_makes_room 12 buffer_5_1).
  - simpl. lia.
  - vm_compute. split; discriminate.
  - vm_compute. reflexivity.
Defined.

Lemma Unread_undoes_Read_witness :
  Unread (set_read at_checkpoint (position.mk 5 0 2)) = Ret at_checkpoint.
Proof.
  apply (Unread_undoes_Read before_checkpoint at_checkpoint _ "b"%char).
  - exact reached_at_checkpoint.
  - vm_compute. reflexivity.
  - reflexivity.
Defined.

Lemma Unread_steps_back_witness :
  exists b',
    Unread at_checkpoint = Ret b' /\
    b' = set_read at_checkpoint (read b') /\
    position.AbsolutePos (read b')
    = Z.max 0 (position.AbsolutePos (read at_checkpoint) - 1) /\
    (position.AbsolutePos (read at_checkpoint) = 0 -> b' = at_checkpoint) /\
    (0 < position.AbsolutePos (read at_checkpoint) ->
     buffered b' = buffered at_checkpoint + 1).
Proof.
  apply (Unread_steps_back before_checkpoint at_checkpoint).
  - exact reached_at_checkpoint.
  - vm_compute. reflexivity.
Defined.

Lemma Read_outcomes_witness :
  (buffered at_checkpoint <= 0 ->
   Read at_checkpoint = Ret ((zero, false), at_checkpoint)) /\
  (0 < buffered at_checkpoint ->
   startRow at_checkpoint <= position.Row (read at_checkpoint) ->
   exists x b', Read at_checkpoint = Ret ((x, true), b') /\
                b' = set_read at_checkpoint (read b') /\
                buffered b' = buffered at_checkpoint - 1) /\
  (0 < buffered at_checkpoint ->
   position.Row (read at_checkpoint) < startRow at_checkpoint ->
   Read at_checkpoint = Abort IndexOutOfRange).
Proof.
  apply (Read_outcomes before_checkpoint at_checkpoint).
  - exact reached_at_checkpoint.
  - vm_compute. reflexivity.
Defined.

Lemma Commit_outcomes_witness : Commit committed_in_row_1 = Abort SliceOutOfRange.
Proof.
  apply (Commit_outcomes six_five_commit committed_in_row_1).
  - exact reached_committed_in_row_1.
  - vm_compute. reflexivity.
  - simpl. lia.
Defined.


Lemma first_Commit_keeps_what_is_unread_witness :
  exists b1 xs b2 b3,
    Commit read_up_to_row_1 = Ret b1 /\
    startRow b1 = position.Row (read read_up_to_row_1) /\
    buffers b1
    = drop (Z.to_nat (position.Row (read read_up_to_row_1)))
        (buffers read_up_to_row_1) /\
    read b1 = read read_up_to_row_1 /\ write b1 = write read_up_to_row_1 /\
    drain read_up_to_row_1 = Ret (map (fun x => (x, true)) xs, b2) /\
    drain b1 = Ret (map (fun x => (x, true)) xs, b3).
Proof.
  apply (first_Commit_keeps_what_is_unread
           (map CallWrite (runes "abcdef") ++ replicate 5 CallRead)
           read_up_to_row_1).
  - exact reached_read_up_to_row_1.
  - vm_compute. reflexivity.
  - reflexivity.
Defined.

Lemma Write_appends_witness :
  exists b',
    Write "d"%char at_checkpoint = Ret b' /\
    read b' = read at_checkpoint /\ startRow b' = startRow at_checkpoint /\
    Buffer.rowSize b' = Buffer.rowSize at_checkpoint /\
    buffered b' = buffered at_checkpoint + 1 /\
    (startRow at_checkpoint <= position.Row (read at_checkpoint) ->
     exists xs b2 b3,
       drain at_checkpoint = Ret (map (fun x => (x, true)) xs, b2) /\
       drain b' = Ret (map (fun x => (x, true)) (xs ++ ["d"%char]), b3)).
Proof.
  apply (Write_appends before_checkpoint at_checkpoint "d"%char).
  - exact reached_at_checkpoint.
  - vm_compute. reflexivity.
Defined.

Lemma Next_and_Consume_follow_writes_witness :
  exists b' : t ascii,
    exec_peek [OpWrite "a"; OpWrite "b"; OpRead; OpWrite "c"; OpRead; OpRead]%char
      buffer_5_1
    = Ret (map (fun x => (x, true)) (runes "abc"), b') /\
    NextConsume.Next b' = Ret ((zero, false), b').
Proof.
  apply (Next_and_Consume_follow_writes 5 1 buffer_5_1
           [OpWrite "a"; OpWrite "b"; OpRead; OpWrite "c"; OpRead; OpRead]%char).
  - reflexivity.
  - reflexivity.
  - vm_compute. reflexivity.
Defined.

Lemma peek_surface_stays_in_kept_rows_witness :
  startRow overrun_committed <= position.Row (read overrun_committed) /\
  (exists a, NextConsume.Next overrun_committed = Ret (a, overrun_committed)) /\
  (exists b', NextConsume.Consume overrun_committed = Ret b') /\
  Rollback (State overrun_committed) overrun_committed
  = (None, overrun_committed).
Proof.
  apply (peek_surface_stays_in_kept_rows overrun_then_commit overrun_committed).
  - exact reached_overrun_committed.
  - vm_compute. reflexivity.
Defined.

Lemma Write_panics_behind_startRow_witness :
  Write "a"%char overrun_committed = Abort IndexOutOfRange.
Proof.
  apply (Write_panics_behind_startRow overrun_then_commit overrun_committed).
  - exact reached_overrun_committed.
  - vm_compute. reflexivity.
  - simpl. lia.
Defined.
